(** * Noise-and-swap pipeline for encoded record files

    A shallow embedding of [add_noise_and_swap_records.py]: the noise
    configuration, the field mutators, the date handling, the row mutation
    engine, the encoding swap engine and the file pipeline, together with
    the properties the specification states about them and further
    properties read off the code.

    Modelling conventions.
    - A Python [str] is a [string]; [list(value)] is [chars] and
      ["".join(l)] is [join].  Characters are 8-bit codes.
    - A Python [float] is a rational [Q]: products and comparisons are exact,
      rounding, infinities and NaN are outside the model.
    - A [dict] with string keys is a [gmap string _].
    - The generator [random.Random] is a tape of raw outcomes with a cursor.
      Every primitive request ([random()], [_randbelow(n)]) reads one tape
      entry and advances the cursor by one; the methods built from them
      ([randrange], [choice], [randint], [sample], [shuffle]) follow
      CPython's [random.py].
    - Exceptions are explicit: a computation returns [Ok] with a value and
      the new generator state, or [Raise] with the exception. *)

From Stdlib Require Import ZArith QArith Qround Qminmax Lia Ascii String.
From stdpp Require Import gmap strings list sorting.

Local Open Scope string_scope.
Local Open Scope list_scope.
Local Open Scope nat_scope.

(** ** Python strings *)

Module Py.

Definition chars (s : string) : list ascii := list_ascii_of_string s.
Definition join (l : list ascii) : string := string_of_list_ascii l.
Definition len (s : string) : nat := length (chars s).

(** [s[:i]] and [s[i:]] for a non-negative index. *)
Definition slice_to (s : string) (i : nat) : string := join (take i (chars s)).
Definition slice_from (s : string) (i : nat) : string := join (drop i (chars s)).

(** [c * n] for a one-character string. *)
Definition repeat_char (c : ascii) (n : nat) : string := join (replicate n c).

End Py.
Import Py.

(** ** Exceptions and the generator monad *)

Inductive exn := ValueError | IndexError | KeyError | OverflowError.

Inductive result (A : Type) :=
  | Ok (a : A)
  | Raise (e : exn).
Arguments Ok {A} a.
Arguments Raise {A} e.

Record Random := mkRandom { tape : nat -> N; cursor : nat }.

Definition M (A : Type) : Type := Random -> result (A * Random).

Definition ret {A} (a : A) : M A := fun g => Ok (a, g).
Definition raise {A} (e : exn) : M A := fun _ => Raise e.
Definition bind {A B} (c : M A) (k : A -> M B) : M B :=
  fun g => match c g with
           | Ok (a, g') => k a g'
           | Raise e => Raise e
           end.
Definition lift {A} (r : result A) : M A :=
  fun g => match r with Ok a => Ok (a, g) | Raise e => Raise e end.

Notation "x <- c ;; k" := (bind c (fun x => k))
  (at level 20, c at level 99, k at level 200, only parsing).

(** One tape entry per primitive request. *)
Definition advance (g : Random) : Random := mkRandom (tape g) (S (cursor g)).
Definition raw (g : Random) : N := tape g (cursor g).

Module rng.

(** [random()]: a multiple of 2^-53 in [0, 1). *)
Definition random : M Q :=
  fun g => Ok (Z.of_N (raw g mod 2 ^ 53) # 2 ^ 53, advance g).

(** [_randbelow(n)] for [0 < n]. *)
Definition randbelow (n : nat) : M nat :=
  fun g => Ok (N.to_nat (raw g mod N.of_nat n), advance g).

(** [randrange(n)]: an empty range is a [ValueError]. *)
Definition randrange (n : nat) : M nat :=
  if decide (n = 0) then raise ValueError else randbelow n.

(** [randint(a, b)] is [randrange(a, b + 1)]. *)
Definition randint (a b : Z) : M Z :=
  if decide (b + 1 - a <= 0)%Z then raise ValueError
  else k <- randbelow (Z.to_nat (b + 1 - a)) ;; ret (a + Z.of_nat k)%Z.

(** [choice(seq)]: an empty sequence is an [IndexError]. *)
Definition choice {A} (l : list A) : M A :=
  match l with
  | [] => raise IndexError
  | d :: _ => i <- randbelow (length l) ;; ret (nth i l d)
  end.

(** [sample(range(n), 2)].  Up to 21 elements CPython draws from a pool:
    the first index is [_randbelow(n)], the vacancy is filled with the last
    element and the second index is drawn from the first [n - 1] slots.
    Above 21 elements it redraws [_randbelow(n)] until the candidate differs
    from the first index; the tape entry is the accepted outcome, counted
    among the [n - 1] admissible indices. *)
Definition sample2 (n : nat) : M (nat * nat) :=
  if decide (n < 2) then raise ValueError
  else if decide (n <= 21) then
    j0 <- randbelow n ;;
    j1 <- randbelow (n - 1) ;;
    ret (j0, if decide (j1 = j0) then n - 1 else j1)
  else
    j0 <- randbelow n ;;
    r <- randbelow (n - 1) ;;
    ret (j0, if decide (r < j0) then r else S r).

End rng.

(** [l[i], l[j] = l[j], l[i]]: both reads come first and an index out of
    range is an [IndexError]. *)
Definition list_swap {A} (i j : nat) (l : list A) : result (list A) :=
  match l !! j, l !! i with
  | Some b, Some a => Ok (<[j:=a]> (<[i:=b]> l))
  | _, _ => Raise IndexError
  end.

(** ** Field mutators *)

Definition letters : string := "abcdefghijklmnopqrstuvwxyz".

Definition introduce_typo (value : string) : M string :=
  if decide (value = "") then ret value
  else
    idx <- rng.randrange (len value) ;;
    op <- rng.choice ["delete"; "insert"; "swap"; "replace"] ;;
    if decide (op = "delete") then
      ret (slice_to value idx +:+ slice_from value (idx + 1))
    else if decide (op = "insert") then
      c <- rng.choice (chars letters) ;;
      ret (slice_to value idx +:+ String c "" +:+ slice_from value idx)
    else if decide (op = "swap" /\ 1 < len value) then
      let j := min (idx + 1) (len value - 1) in
      swapped <- lift (list_swap idx j (chars value)) ;;
      ret (join swapped)
    else
      c <- rng.choice (chars letters) ;;
      ret (slice_to value idx +:+ String c "" +:+ slice_from value (idx + 1)).

Definition swap_two_characters (value : string) : M string :=
  if decide (value = "" \/ len value < 2) then ret value
  else
    ij <- rng.sample2 (len value) ;;
    let '(i, j) := ij in
    if decide (i = j) then ret value
    else
      chars' <- lift (list_swap i j (chars value)) ;;
      ret (join chars').

(** ASCII case mapping; characters outside [A-Za-z] are left as they are. *)
Definition is_upper (c : ascii) : bool :=
  let n := nat_of_ascii c in (65 <=? n) && (n <=? 90).
Definition is_lower (c : ascii) : bool :=
  let n := nat_of_ascii c in (97 <=? n) && (n <=? 122).
Definition is_digit (c : ascii) : bool :=
  let n := nat_of_ascii c in (48 <=? n) && (n <=? 57).
Definition lower_char (c : ascii) : ascii :=
  if is_upper c then ascii_of_nat (nat_of_ascii c + 32) else c.
Definition upper_char (c : ascii) : ascii :=
  if is_lower c then ascii_of_nat (nat_of_ascii c - 32) else c.

Definition str_lower (s : string) : string := join (map lower_char (chars s)).
Definition str_upper (s : string) : string := join (map upper_char (chars s)).

(** [str.title]: a cased character is upper-cased after an uncased one and
    lower-cased after a cased one. *)
Fixpoint title_go (previous_is_cased : bool) (l : list ascii) : list ascii :=
  match l with
  | [] => []
  | c :: r =>
      (if previous_is_cased then lower_char c else upper_char c)
        :: title_go (is_upper c || is_lower c) r
  end.
Definition str_title (s : string) : string := join (title_go false (chars s)).

Definition str_capitalize (s : string) : string :=
  match chars s with
  | [] => s
  | c :: r => join (upper_char c :: map lower_char r)
  end.

Definition random_case (value : string) : M string :=
  if decide (value = "") then ret value
  else
    fn <- rng.choice [str_lower; str_upper; str_title; str_capitalize] ;;
    ret (fn value).

Definition add_whitespace (value : string) : M string :=
  if decide (value = "") then ret value
  else
    n1 <- rng.randint 0 2 ;;
    let prefix := repeat_char " " (Z.to_nat n1) in
    n2 <- rng.randint 0 2 ;;
    let suffix := repeat_char " " (Z.to_nat n2) in
    ret (prefix +:+ value +:+ suffix).

Definition add_suffix (value : string) : M string :=
  if decide (value = "") then ret value
  else
    s <- rng.choice [" Jr"; " Sr"; " II"; " III"; "-Smith"] ;;
    ret (value +:+ s).

(** ** Noise configuration *)

Record NoiseConfig := mkNoiseConfig {
  missing_prob : Q;
  typo_prob : Q;
  case_prob : Q;
  swap_name_prob : Q;
  char_swap_prob : Q;
  whitespace_prob : Q;
  suffix_prob : Q;
  uid_noise_prob : Q;
  date_shift_prob : Q;
  date_format_prob : Q;
  date_text_token_prob : Q;
  max_date_shift_days : Z
}.

(** Python's two-argument [min] and [max] return the first argument unless
    the second is strictly smaller (larger). *)
Definition py_min (a b : Q) : Q := if Qle_bool a b then a else b.
Definition py_max (a b : Q) : Q := if Qle_bool b a then a else b.
Definition py_maxZ (a b : Z) : Z := if (b <=? a)%Z then a else b.

(** [int(x)] truncates towards zero. *)
Definition py_int (x : Q) : Z := (Qnum x ÷ Z.pos (Qden x))%Z.

Definition clamp_to (prob maximum : Q) : Q := py_max 0 (py_min prob maximum).
(** [clamp(prob)] with the default [maximum=0.95]. *)
Definition clamp (prob : Q) : Q := clamp_to prob (95 # 100).

Definition build_noise_config (level : Q) : NoiseConfig := {|
  missing_prob := clamp ((3 # 100) * level);
  typo_prob := clamp ((15 # 100) * level);
  case_prob := clamp ((1 # 10) * level);
  swap_name_prob := clamp ((4 # 100) * level);
  char_swap_prob := clamp ((6 # 100) * level);
  whitespace_prob := clamp ((12 # 100) * level);
  suffix_prob := clamp ((5 # 100) * level);
  uid_noise_prob := clamp ((6 # 100) * level);
  date_shift_prob := clamp ((3 # 10) * level);
  date_format_prob := clamp ((45 # 100) * level);
  date_text_token_prob := clamp ((2 # 100) * level);
  max_date_shift_days := py_maxZ 1 (py_int (12 * level))
|}.

(** The gate [rng.random() < p]. *)
Definition Qltb (x y : Q) : bool := negb (Qle_bool y x).
Definition gate (p : Q) : M bool := r <- rng.random ;; ret (Qltb r p).

(** ** Name and generic mutation *)

Definition mutate_name (value : string) (config : NoiseConfig) : M string :=
  fire <- gate (missing_prob config) ;;
  if fire : bool then ret ""
  else
    fire <- gate (char_swap_prob config) ;;
    value <- (if fire : bool then swap_two_characters value else ret value) ;;
    fire <- gate (typo_prob config) ;;
    value <- (if fire : bool then introduce_typo value else ret value) ;;
    fire <- gate (case_prob config) ;;
    value <- (if fire : bool then random_case value else ret value) ;;
    fire <- gate (whitespace_prob config) ;;
    value <- (if fire : bool then add_whitespace value else ret value) ;;
    fire <- gate (suffix_prob config) ;;
    value <- (if fire : bool then add_suffix value else ret value) ;;
    ret value.

Definition mutate_generic (value : string) (config : NoiseConfig) : M string :=
  fire <- gate (missing_prob config) ;;
  if fire : bool then ret ""
  else
    fire <- gate (char_swap_prob config) ;;
    value <- (if fire : bool then swap_two_characters value else ret value) ;;
    fire <- gate (typo_prob config) ;;
    value <- (if fire : bool then introduce_typo value else ret value) ;;
    fire <- gate (case_prob config) ;;
    value <- (if fire : bool then random_case value else ret value) ;;
    fire <- gate (whitespace_prob config) ;;
    value <- (if fire : bool then add_whitespace value else ret value) ;;
    ret value.

(** ** Dates

    [strptime] with the formats used here yields midnight, so a [datetime]
    is its calendar date.  [MINYEAR = 1] and [MAXYEAR = 9999]. *)

Record datetime := mkdate { year : Z; month : Z; day : Z }.

Definition is_leap (y : Z) : bool :=
  ((y mod 4 =? 0) && (negb (y mod 100 =? 0) || (y mod 400 =? 0)))%Z.

Definition days_in_month (y m : Z) : Z :=
  (match m with
   | 1 | 3 | 5 | 7 | 8 | 10 | 12 => 31
   | 4 | 6 | 9 | 11 => 30
   | 2 => if is_leap y then 29 else 28
   | _ => 0
   end)%Z.

Definition valid_date (d : datetime) : bool :=
  ((1 <=? year d) && (year d <=? 9999) &&
   (1 <=? month d) && (month d <=? 12) &&
   (1 <=? day d) && (day d <=? days_in_month (year d) (month d)))%Z.

(** The day after and the day before; [None] outside the supported range. *)
Definition next_day (d : datetime) : option datetime :=
  (if day d <? days_in_month (year d) (month d) then
     Some (mkdate (year d) (month d) (day d + 1))
   else if month d <? 12 then Some (mkdate (year d) (month d + 1) 1)
   else if year d <? 9999 then Some (mkdate (year d + 1) 1 1)
   else None)%Z.

Definition prev_day (d : datetime) : option datetime :=
  (if 1 <? day d then Some (mkdate (year d) (month d) (day d - 1))
   else if 1 <? month d then
     Some (mkdate (year d) (month d - 1) (days_in_month (year d) (month d - 1)))
   else if 1 <? year d then Some (mkdate (year d - 1) 12 31)
   else None)%Z.

Fixpoint iter_days (step : datetime -> option datetime) (n : nat)
    (d : datetime) : option datetime :=
  match n with
  | 0 => Some d
  | S n' => match step d with Some d' => iter_days step n' d' | None => None end
  end.

(** [dt + timedelta(days=delta)]: leaving the range is an [OverflowError]. *)
Definition add_days (d : datetime) (delta : Z) : result datetime :=
  let moved :=
    if (0 <=? delta)%Z then iter_days next_day (Z.to_nat delta) d
    else iter_days prev_day (Z.to_nat (- delta)) d in
  match moved with Some d' => Ok d' | None => Raise OverflowError end.

(** *** Rendering: [strftime]

    [%Y] is the year in four digits, [%m] and [%d] are two digits, as the
    library documents them. *)

Definition digit (n : Z) : ascii := ascii_of_nat (Z.to_nat (48 + n)).
Definition pad2 (n : Z) : list ascii :=
  [digit (n / 10 mod 10); digit (n mod 10)]%Z.
Definition pad4 (n : Z) : list ascii :=
  [digit (n / 1000 mod 10); digit (n / 100 mod 10);
   digit (n / 10 mod 10); digit (n mod 10)]%Z.

(** Abbreviated month names of the C locale. *)
Definition month_abbr : list string :=
  ["Jan"; "Feb"; "Mar"; "Apr"; "May"; "Jun";
   "Jul"; "Aug"; "Sep"; "Oct"; "Nov"; "Dec"].

(** The directives [%Y], [%m], [%d], [%b] and [%%]; any other character
    pair is copied. *)
Fixpoint strftime_go (fmt : list ascii) (d : datetime) : list ascii :=
  match fmt with
  | [] => []
  | c :: r =>
      if decide (c = "%"%char) then
        match r with
        | [] => [c]
        | x :: r' =>
            (if decide (x = "Y"%char) then pad4 (year d)
             else if decide (x = "m"%char) then pad2 (month d)
             else if decide (x = "d"%char) then pad2 (day d)
             else if decide (x = "b"%char) then
               chars (nth (Z.to_nat (month d - 1)) month_abbr "")
             else if decide (x = "%"%char) then ["%"%char]
             else [c; x]) ++ strftime_go r' d
        end
      else c :: strftime_go r d
  end.

Definition strftime (d : datetime) (fmt : string) : string :=
  join (strftime_go (chars fmt) d).

(** *** Parsing: [strptime]

    [_strptime] turns the format into a regular expression, matched at the
    start of the value with backtracking, alternatives in priority order and
    case ignored; the whole value must be consumed and the fields must form
    a date. *)

Inductive token := TY | Tm | Td | Tb | Tspace | Tlit (c : ascii).

(** [\s] on 8-bit characters. *)
Definition is_space (c : ascii) : bool :=
  let n := nat_of_ascii c in
  ((9 <=? n) && (n <=? 13)) || ((28 <=? n) && (n <=? 32))
  || (n =? 133) || (n =? 160).

(** A run of white space in the format is one [\s+]; an unknown directive
    is a [ValueError]. *)
Fixpoint tokens_go (in_space : bool) (fmt : list ascii) : option (list token) :=
  match fmt with
  | [] => Some []
  | c :: r =>
      if decide (c = "%"%char) then
        match r with
        | [] => None
        | x :: r' =>
            let t :=
              if decide (x = "Y"%char) then Some TY
              else if decide (x = "m"%char) then Some Tm
              else if decide (x = "d"%char) then Some Td
              else if decide (x = "b"%char) then Some Tb
              else if decide (x = "%"%char) then Some (Tlit "%")
              else None in
            match t, tokens_go false r' with
            | Some t, Some ts => Some (t :: ts)
            | _, _ => None
            end
        end
      else if is_space c then
        match tokens_go true r with
        | Some ts => Some (if in_space then ts else Tspace :: ts)
        | None => None
        end
      else
        match tokens_go false r with
        | Some ts => Some (Tlit c :: ts)
        | None => None
        end
  end.

Definition cls := ascii -> bool.
Definition one (c : ascii) : cls := fun x => bool_decide (x = c).
Definition between (lo hi : ascii) : cls :=
  fun x => (nat_of_ascii lo <=? nat_of_ascii x) && (nat_of_ascii x <=? nat_of_ascii hi).
Definition nocase (c : ascii) : cls := fun x => bool_decide (lower_char x = lower_char c).

(** [1[0-2]|0[1-9]|[1-9]] *)
Definition alts_m : list (list cls) :=
  [[one "1"; between "0" "2"]; [one "0"; between "1" "9"]; [between "1" "9"]].
(** [3[0-1]|[1-2]\d|0[1-9]|[1-9]| [1-9]] *)
Definition alts_d : list (list cls) :=
  [[one "3"; between "0" "1"]; [between "1" "2"; is_digit];
   [one "0"; between "1" "9"]; [between "1" "9"]; [one " "; between "1" "9"]].
(** [\d\d\d\d] *)
Definition alts_Y : list (list cls) := [[is_digit; is_digit; is_digit; is_digit]].
(** [jan|feb|...|dec] *)
Definition alts_b : list (list cls) :=
  map (fun name => map nocase (chars name)) month_abbr.

(** One alternative against the head of the value: the matched text and
    the rest. *)
Fixpoint match_alt (alt : list cls) (s : list ascii)
    : option (list ascii * list ascii) :=
  match alt with
  | [] => Some ([], s)
  | p :: alt' =>
      match s with
      | [] => None
      | x :: s' =>
          if p x then
            match match_alt alt' s' with
            | Some (txt, rest) => Some (x :: txt, rest)
            | None => None
            end
          else None
      end
  end.

(** The first candidate, in order, for which [try] succeeds. *)
Fixpoint first_success {X A} (try : X -> option A) (cands : list X) : option A :=
  match cands with
  | [] => None
  | c :: cs => match try c with Some a => Some a | None => first_success try cs end
  end.

(** [int(text)]: decimal digits, surrounding white space ignored. *)
Definition py_int_of (txt : list ascii) : Z :=
  fold_left (fun acc c =>
               if is_digit c then (10 * acc + (Z.of_nat (nat_of_ascii c) - 48))%Z
               else acc)
            txt 0%Z.

Record fields := mkfields { fY : Z; fm : Z; fd : Z }.

Fixpoint space_run (s : list ascii) : nat :=
  match s with
  | c :: r => if is_space c then S (space_run r) else 0
  | [] => 0
  end.

(** One element of the expression against the head of the value, with the
    rest of the expression as the continuation [K]; a failing continuation
    sends the search to the next alternative. *)
Definition regex_step (t : token)
    (K : fields -> list ascii -> option (fields * list ascii))
    (acc : fields) (s : list ascii) : option (fields * list ascii) :=
  let group (alts : list (list cls)) (store : list ascii -> fields) :=
    first_success
      (fun alt => match match_alt alt s with
                  | Some (txt, rest) => K (store txt) rest
                  | None => None
                  end) alts in
  match t with
  | TY => group alts_Y (fun txt => mkfields (py_int_of txt) (fm acc) (fd acc))
  | Tm => group alts_m (fun txt => mkfields (fY acc) (py_int_of txt) (fd acc))
  | Td => group alts_d (fun txt => mkfields (fY acc) (fm acc) (py_int_of txt))
  | Tb =>
      first_success
        (fun k => match match_alt (nth k alts_b []) s with
                  | Some (_, rest) =>
                      K (mkfields (fY acc) (Z.of_nat (S k)) (fd acc)) rest
                  | None => None
                  end) (seq 0 12)
  | Tspace =>
      (* greedy [\s+]: the longest run first, then shorter ones *)
      first_success (fun k => K acc (drop k s)) (rev (seq 1 (space_run s)))
  | Tlit c =>
      match s with
      | x :: rest => if nocase c x then K acc rest else None
      | [] => None
      end
  end.

Fixpoint regex_match (ts : list token)
    : fields -> list ascii -> option (fields * list ascii) :=
  match ts with
  | [] => fun acc s => Some (acc, s)
  | t :: ts' => regex_step t (regex_match ts')
  end.

(** [datetime.strptime(value, fmt)]; [None] stands for [ValueError].
    Missing fields default to 1900-01-01. *)
Definition strptime (value fmt : string) : option datetime :=
  match tokens_go false (chars fmt) with
  | None => None
  | Some ts =>
      match regex_match ts (mkfields 1900 1 1) (chars value) with
      | Some (f, []) =>
          let d := mkdate (fY f) (fm f) (fd f) in
          if valid_date d then Some d else None
      | _ => None
      end
  end.

Definition parse_birthday (value : string) : option datetime :=
  first_success (fun fmt => strptime value fmt)
                ["%m/%d/%Y"; "%d/%m/%Y"; "%Y-%m-%d"].

(** [re.sub(r"\b0(\d)", r"\1", s)] on ASCII text: scanning from the left,
    a [0] at a word boundary followed by a digit is dropped and the scan
    resumes after that digit. *)
Definition is_word (c : ascii) : bool :=
  is_digit c || is_upper c || is_lower c || bool_decide (c = "_"%char).

Fixpoint strip_zero_go (prev_word : bool) (s : list ascii) : list ascii :=
  match s with
  | [] => []
  | c :: r =>
      match r with
      | x :: r' =>
          if negb prev_word && bool_decide (c = "0"%char) && is_digit x
          then x :: strip_zero_go true r'
          else c :: strip_zero_go (is_word c) r
      | [] => [c]
      end
  end.
Definition strip_leading_zeros (s : string) : string :=
  join (strip_zero_go false (chars s)).

(** [s.replace(old, new)] for one-character strings. *)
Definition replace_char (old new c : ascii) : ascii :=
  if decide (c = old) then new else c.
Definition str_replace (old new : ascii) (s : string) : string :=
  join (map (replace_char old new) (chars s)).

Definition placeholder_tokens : list string :=
  ["unknown"; "n/a"; "see notes"; "??"].
Definition output_formats : list string :=
  ["%m/%d/%Y"; "%d/%m/%Y"; "%Y-%m-%d"; "%m-%d-%Y"; "%d %b %Y"].

Definition format_birthday (dt : datetime) (config : NoiseConfig) : M string :=
  fire <- gate (date_text_token_prob config) ;;
  if fire : bool then rng.choice placeholder_tokens
  else
    fire <- gate (date_shift_prob config) ;;
    dt <- (if fire : bool then
             delta <- rng.randint (- max_date_shift_days config)
                                  (max_date_shift_days config) ;;
             lift (add_days dt delta)
           else ret dt) ;;
    fmt <- rng.choice output_formats ;;
    let formatted := strftime dt fmt in
    fire <- gate (date_format_prob config) ;;
    if fire : bool then
      let formatted := strip_leading_zeros formatted in
      fire <- gate (3 # 10) ;;
      if fire : bool then ret (str_replace "/" "-" formatted) else ret formatted
    else ret formatted.

(** ** Row mutation engine *)

(** [needle in haystack] for strings. *)
Fixpoint is_prefix (p s : list ascii) : bool :=
  match p, s with
  | [], _ => true
  | a :: p', b :: s' => bool_decide (a = b) && is_prefix p' s'
  | _ :: _, [] => false
  end.
Fixpoint contains_go (p s : list ascii) : bool :=
  is_prefix p s || match s with [] => false | _ :: s' => contains_go p s' end.
Definition str_contains (needle haystack : string) : bool :=
  contains_go (chars needle) (chars haystack).

(** The body of the loop over [mutate_fields]; [mutated] is the copy being
    filled. *)
Definition mutate_column (row : gmap string string) (config : NoiseConfig)
    (mutated : gmap string string) (col : string) : M (gmap string string) :=
  let val := default "" (row !! col) in
  let col_lower := str_lower col in
  if decide (col = "GivenName" \/ col = "Surname") then
    v <- mutate_name val config ;; ret (<[col:=v]> mutated)
  else if str_contains "birth" col_lower || str_contains "date" col_lower then
    match parse_birthday val with
    | Some dt => v <- format_birthday dt config ;; ret (<[col:=v]> mutated)
    | None =>
        fire <- gate (missing_prob config) ;;
        if fire : bool then ret (<[col:=""]> mutated) else ret mutated
    end
  else
    v <- mutate_generic val config ;; ret (<[col:=v]> mutated).

Fixpoint mutate_columns (row : gmap string string) (config : NoiseConfig)
    (cols : list string) (mutated : gmap string string)
    : M (gmap string string) :=
  match cols with
  | [] => ret mutated
  | col :: rest =>
      mutated' <- mutate_column row config mutated col ;;
      mutate_columns row config rest mutated'
  end.

(** [fieldnames[:-2] if len(fieldnames) >= 2 else []] *)
Definition mutate_fields (fieldnames : list string) : list string :=
  if decide (2 <= length fieldnames) then take (length fieldnames - 2) fieldnames
  else [].

(** The last step: the gate is drawn first, then the two membership tests. *)
Definition swap_names (config : NoiseConfig) (mutated : gmap string string)
    : M (gmap string string) :=
  fire <- gate (swap_name_prob config) ;;
  match fire, mutated !! "GivenName", mutated !! "Surname" with
  | true, Some given, Some sur =>
      ret (<["Surname":=given]> (<["GivenName":=sur]> mutated))
  | _, _, _ => ret mutated
  end.

Definition mutate_encoded_row (row : gmap string string)
    (fieldnames : list string) (config : NoiseConfig) : M (gmap string string) :=
  let mutated := row in
  mutated <- mutate_columns row config (mutate_fields fieldnames) mutated ;;
  swap_names config mutated.

(** ** Record swap engine *)

(** [shuffle(x)]: for [i] from [len(x) - 1] down to [1], exchange [x[i]]
    with [x[_randbelow(i + 1)]]. *)
Fixpoint shuffle_from {A} (i : nat) (x : list A) : M (list A) :=
  match i with
  | 0 => ret x
  | S i' =>
      j <- rng.randbelow (i + 1) ;;
      x' <- lift (list_swap i j x) ;;
      shuffle_from i' x'
  end.
Definition shuffle {A} (x : list A) : M (list A) := shuffle_from (length x - 1) x.

(** [range(0, stop, 2)] *)
Definition range_by_two (stop : nat) : list nat :=
  map (fun t => 2 * t) (seq 0 ((stop + 1) / 2)).

(** The rows are a list of dictionaries mutated in place; position [i] of
    the list stands for the dictionary object [rows[i]].  The objects are
    pairwise distinct: [process_encoded_file] builds each with [dict(row)].

    [rows[i][enc_col], rows[j][enc_col] = rows[j][enc_col], rows[i][enc_col]]:
    the right-hand side is read first, then the two items are stored from
    left to right. *)
Definition swap_encodings (enc_col : string) (i j : nat)
    (rows : list (gmap string string)) : result (list (gmap string string)) :=
  match rows !! j, rows !! i with
  | Some rj, Some ri =>
      match rj !! enc_col, ri !! enc_col with
      | Some ej, Some ei =>
          let rows1 := <[i := <[enc_col:=ej]> ri]> rows in
          match rows1 !! j with
          | Some rj1 => Ok (<[j := <[enc_col:=ei]> rj1]> rows1)
          | None => Raise IndexError
          end
      | _, _ => Raise KeyError
      end
  | _, _ => Raise IndexError
  end.

(** The outcome of the in-place loop: the rows as the caller sees them
    afterwards, the exception if one escaped, and the generator. *)
Record swapped := mkswapped {
  rows_after : list (gmap string string);
  escaped : option exn;
  rng_after : Random
}.

(** The pair of positions visited at loop index [k]. *)
Definition pair_at (indices : list nat) (k : nat) : option (nat * nat) :=
  match indices !! k, indices !! (k + 1) with
  | Some i, Some j => Some (i, j)
  | _, _ => None
  end.

Fixpoint swap_loop (enc_col : string) (swap_prob : Q) (indices : list nat)
    (ks : list nat) (rows : list (gmap string string)) (g : Random) : swapped :=
  match ks with
  | [] => mkswapped rows None g
  | k :: ks' =>
      match rng.random g with
      | Raise e => mkswapped rows (Some e) g
      | Ok (r, g') =>
          if Qle_bool swap_prob r then swap_loop enc_col swap_prob indices ks' rows g'
          else
            match pair_at indices k with
            | None => mkswapped rows (Some IndexError) g'
            | Some (i, j) =>
                match swap_encodings enc_col i j rows with
                | Raise e => mkswapped rows (Some e) g'
                | Ok rows' => swap_loop enc_col swap_prob indices ks' rows' g'
                end
            end
      end
  end.

Definition apply_encoding_swaps (rows : list (gmap string string))
    (enc_col : string) (swap_prob : Q) (g : Random) : swapped :=
  match rows with
  | [] => mkswapped rows None g
  | first :: _ =>
      if bool_decide (first !! enc_col = None) || Qle_bool swap_prob 0 then
        mkswapped rows None g
      else
        match shuffle (seq 0 (length rows)) g with
        | Raise e => mkswapped rows (Some e) g
        | Ok (indices, g') =>
            swap_loop enc_col swap_prob indices
                      (range_by_two (length indices - 1)) rows g'
        end
  end.

(** The positions the loop visits, in order. *)
Definition pair_list (indices : list nat) (k : nat) : list nat :=
  match pair_at indices k with Some (i, j) => [i; j] | None => [] end.
Definition visited (indices : list nat) : list nat :=
  flat_map (pair_list indices) (range_by_two (length indices - 1)).

(** ** File pipeline *)

(** The four patterns of [iter_encoded_files], in the order they are tried. *)
Definition patterns : list string :=
  ["*_bf_encoded.tsv"; "*_bfd_encoded.tsv"; "*_tmh_encoded.tsv";
   "*_tsh_encoded.tsv"].

(** A file name against a glob pattern, case-sensitive as on POSIX: [*]
    stands for any run of characters, [?] for one character, any other
    character for itself.  (The four patterns use [*] only.) *)
Fixpoint glob_match (pattern name : list ascii) : bool :=
  match pattern with
  | [] => match name with [] => true | _ :: _ => false end
  | c :: pattern' =>
      if decide (c = "*"%char) then
        (fix star (name : list ascii) : bool :=
           glob_match pattern' name
           || match name with [] => false | _ :: name' => star name' end) name
      else
        match name with
        | [] => false
        | x :: name' =>
            (bool_decide (c = "?"%char) || bool_decide (x = c))
            && glob_match pattern' name'
        end
  end.

(** [input_dir.glob(pattern)] over the names of the directory's entries. *)
Definition glob (pattern : string) (names : list string) : list string :=
  filter (fun name => glob_match (chars pattern) (chars name) = true) names.

(** [sorted(...)] on paths of one directory: the order of their names. *)
Definition sorted (names : list string) : list string :=
  merge_sort String.le names.

(** The paths [iter_encoded_files] yields, in order, for a directory with
    the given entry names. *)
Definition iter_encoded_files (names : list string) : list string :=
  flat_map (fun pattern => sorted (glob pattern names)) patterns.

(** [[mutate_encoded_row(row, fieldnames, rng, config) for row in rows]] *)
Fixpoint mutate_rows (rows : list (gmap string string))
    (fieldnames : list string) (config : NoiseConfig)
    : M (list (gmap string string)) :=
  match rows with
  | [] => ret []
  | row :: rest =>
      noisy <- mutate_encoded_row row fieldnames config ;;
      others <- mutate_rows rest fieldnames config ;;
      ret (noisy :: others)
  end.

(** [fieldnames[-2] if len(fieldnames) >= 2 else None] *)
Definition encoding_column (fieldnames : list string) : option string :=
  if decide (2 <= length fieldnames) then fieldnames !! (length fieldnames - 2)
  else None.

(** [process_encoded_file] between reading and writing: from the header
    and the rows [csv.DictReader] delivered to the rows handed to
    [csv.DictWriter]; [None] when there is no header and the input path is
    returned at once.  An exception leaves the function before anything is
    written. *)
Definition process_encoded_file (fieldnames : list string)
    (rows : list (gmap string string)) (config : NoiseConfig) (swap_prob : Q)
    : M (option (list (gmap string string))) :=
  if decide (fieldnames = []) then ret None
  else
    noisy_rows <- mutate_rows rows fieldnames config ;;
    match encoding_column fieldnames with
    | Some enc_col =>
        if decide (enc_col = "") then ret (Some noisy_rows)
        else
          fun g =>
            let out := apply_encoding_swaps noisy_rows enc_col swap_prob g in
            match escaped out with
            | Some e => Raise e
            | None => Ok (Some (rows_after out), rng_after out)
            end
    | None => ret (Some noisy_rows)
    end.

(** Generators for concrete runs: the tape is the given list, followed by
    zeros. *)
Definition tape_of (l : list N) : Random := mkRandom (fun i => nth i l 0%N) 0.

(** ** The documented coefficients

    The table of the specification: each effect key with its coefficient. *)
Definition documented_coefficients : list ((NoiseConfig -> Q) * Q) :=
  [(missing_prob, 3 # 100); (typo_prob, 15 # 100); (case_prob, 1 # 10);
   (swap_name_prob, 4 # 100); (char_swap_prob, 6 # 100);
   (whitespace_prob, 12 # 100); (suffix_prob, 5 # 100);
   (uid_noise_prob, 6 # 100); (date_shift_prob, 3 # 10);
   (date_format_prob, 45 # 100); (date_text_token_prob, 2 # 100)].

(** ** The stage pipeline of the specification

    The specification describes [mutate_name] as a missing-value gate
    followed by gated stages, each applied to the output of the one before.
    [run_stages] follows those words; [mutate_name] above follows the code. *)
Definition stage (p : Q) (mutator : string -> M string) (value : string)
    : M string :=
  fire <- gate p ;; if fire : bool then mutator value else ret value.

Fixpoint run_stages (stages : list (Q * (string -> M string))) (value : string)
    : M string :=
  match stages with
  | [] => ret value
  | (p, mutator) :: rest => v <- stage p mutator value ;; run_stages rest v
  end.

Definition name_stages (config : NoiseConfig) : list (Q * (string -> M string)) :=
  [(char_swap_prob config, swap_two_characters);
   (typo_prob config, introduce_typo);
   (case_prob config, random_case);
   (whitespace_prob config, add_whitespace);
   (suffix_prob config, add_suffix)].

(** ** Vocabulary for the date properties *)

(** A day or month number as [strftime] renders it once a leading zero has
    been dropped. *)
Definition short2 (n : Z) : list ascii :=
  if (n <? 10)%Z then [digit (n mod 10)] else pad2 n.

(** The value is one of the placeholders or parses under one of [formats]. *)
Definition placeholder_or_parses (formats : list string) (s : string) : Prop :=
  s ∈ placeholder_tokens
  \/ exists fmt, fmt ∈ formats /\ is_Some (strptime s fmt).

(** A continuation that rejects any value starting with a digit. *)
Definition rejects_digits
    (K : fields -> list ascii -> option (fields * list ascii)) : Prop :=
  forall acc x r, is_digit x = true -> K acc (x :: r) = None.

(** ** Vocabulary for the swap engine *)

(** The value of column [col] in the row at position [i], if both exist. *)
Definition value_at (col : string) (rows : list (gmap string string)) (i : nat)
    : option string :=
  match rows !! i with Some r => r !! col | None => None end.

(** Two rows agree on every column but [col]. *)
Definition same_outside (col : string) (r r' : gmap string string) : Prop :=
  forall c, c <> col -> r' !! c = r !! c.

(** ** Vocabulary for the mutators, the rows and the file pipeline *)

(** The stages of [mutate_generic], in source order: those of
    [mutate_name] without the suffix. *)
Definition generic_stages (config : NoiseConfig) : list (Q * (string -> M string)) :=
  [(char_swap_prob config, swap_two_characters);
   (typo_prob config, introduce_typo);
   (case_prob config, random_case);
   (whitespace_prob config, add_whitespace)].

(** A computation that returns for every generator state. *)
Definition never_raises {A} (c : M A) : Prop :=
  forall g, exists a g', c g = Ok (a, g').

(** The roles [mutate_column] gives a column: the two name columns first,
    then the date-like ones, then the rest. *)
Definition name_column (col : string) : Prop := col = "GivenName" \/ col = "Surname".
Definition date_column (col : string) : Prop :=
  ~ name_column col
  /\ str_contains "birth" (str_lower col) || str_contains "date" (str_lower col) = true.

(** All eleven gates at zero or below. *)
Definition all_gates_closed (config : NoiseConfig) : Prop :=
  Forall (fun '(key, _) => (key config <= 0)%Q) documented_coefficients.

(** The name endings the four patterns stand for. *)
Definition encoded_suffixes : list string :=
  ["_bf_encoded.tsv"; "_bfd_encoded.tsv"; "_tmh_encoded.tsv"; "_tsh_encoded.tsv"].

(** A pattern text without wildcards. *)
Definition literal (l : list ascii) : Prop :=
  Forall (fun c => c <> "*"%char /\ c <> "?"%char) l.

(** * Properties *)

(** ** Strings *)

Section strings.

Lemma chars_join (l : list ascii) : chars (join l) = l.
Proof. apply list_ascii_of_string_of_list_ascii. Qed.

Lemma join_chars (s : string) : join (chars s) = s.
Proof. apply string_of_list_ascii_of_string. Qed.

Lemma chars_app (a b : string) : chars (a +:+ b) = chars a ++ chars b.
Proof. induction a as [|c a IH]; simpl; [done | by rewrite <- IH]. Qed.

Lemma len_join (l : list ascii) : len (join l) = length l.
Proof. unfold len. by rewrite chars_join. Qed.

Lemma len_app (a b : string) : len (a +:+ b) = len a + len b.
Proof. unfold len. by rewrite chars_app, length_app. Qed.

Lemma len_nonempty (s : string) : s <> "" -> 0 < len s.
Proof. destruct s; [done | unfold len; simpl; lia]. Qed.

Lemma len_slice_to (s : string) (i : nat) : len (slice_to s i) = min i (len s).
Proof. unfold slice_to. rewrite len_join, length_take. done. Qed.

Lemma len_slice_from (s : string) (i : nat) : len (slice_from s i) = len s - i.
Proof. unfold slice_from. rewrite len_join, length_drop. done. Qed.

End strings.

(** ** The generator *)

Section generator.

Lemma randbelow_spec (n : nat) (g : Random) :
  0 < n -> exists k, rng.randbelow n g = Ok (k, advance g) /\ k < n.
Proof.
  intros Hn. eexists. split; [reflexivity |].
  assert (raw g mod N.of_nat n < N.of_nat n)%N by (apply N.mod_lt; lia).
  lia.
Qed.

Lemma randrange_spec (n : nat) (g : Random) :
  0 < n -> exists k, rng.randrange n g = Ok (k, advance g) /\ k < n.
Proof.
  intros Hn. unfold rng.randrange. destruct (decide (n = 0)); [lia |].
  by apply randbelow_spec.
Qed.

Lemma choice_spec {A} (l : list A) (g : Random) :
  l <> [] -> exists x, rng.choice l g = Ok (x, advance g) /\ x ∈ l.
Proof.
  intros Hl. destruct l as [|d l']; [done |].
  unfold rng.choice, bind.
  destruct (randbelow_spec (length (d :: l')) g) as (k & -> & Hk); [simpl; lia |].
  eexists. split; [reflexivity |].
  apply list_elem_of_In, nth_In. done.
Qed.

Lemma randint_spec (a b : Z) (g : Random) :
  (a <= b)%Z ->
  exists k, rng.randint a b g = Ok (k, advance g) /\ (a <= k <= b)%Z.
Proof.
  intros Hab. unfold rng.randint. destruct (decide _); [lia |].
  unfold bind.
  destruct (randbelow_spec (Z.to_nat (b + 1 - a)) g) as (k & -> & Hk); [lia |].
  eexists. split; [reflexivity | lia].
Qed.

Lemma sample2_spec (n : nat) (g : Random) :
  2 <= n ->
  exists i j, rng.sample2 n g = Ok ((i, j), advance (advance g))
              /\ i < n /\ j < n /\ i <> j.
Proof.
  intros Hn. unfold rng.sample2.
  destruct (decide (n < 2)); [lia |].
  destruct (decide (n <= 21)); unfold bind.
  - destruct (randbelow_spec n g) as (i & -> & Hi); [lia |].
    destruct (randbelow_spec (n - 1) (advance g)) as (j & -> & Hj); [lia |].
    eexists _, _. split; [reflexivity |].
    destruct (decide (j = i)); lia.
  - destruct (randbelow_spec n g) as (i & -> & Hi); [lia |].
    destruct (randbelow_spec (n - 1) (advance g)) as (j & -> & Hj); [lia |].
    eexists _, _. split; [reflexivity |].
    destruct (decide (j < i)); lia.
Qed.

Lemma gate_spec (p : Q) (g : Random) :
  exists b, gate p g = Ok (b, advance g).
Proof. eexists. reflexivity. Qed.

End generator.

(** ** Exchanging two list positions *)

Section swapping.

Context {A : Type}.
Implicit Types l : list A.

Lemma insert_cons_perm l (j : nat) (b x : A) :
  l !! j = Some b -> b :: <[j:=x]> l ≡ₚ x :: l.
Proof.
  revert j. induction l as [|y l IH]; intros [|j] Hj; simplify_eq/=.
  - apply perm_swap.
  - etransitivity; [apply perm_swap |].
    etransitivity; [apply perm_skip, (IH _ Hj) |]. apply perm_swap.
Qed.

Lemma swap_perm l (i j : nat) (a b : A) :
  l !! i = Some a -> l !! j = Some b -> <[j:=a]> (<[i:=b]> l) ≡ₚ l.
Proof.
  revert i j. induction l as [|y l IH]; intros [|i] [|j] Hi Hj; simplify_eq/=.
  - done.
  - by apply insert_cons_perm.
  - by apply insert_cons_perm.
  - apply perm_skip. by apply IH.
Qed.

Lemma list_swap_spec l (i j : nat) :
  i < length l -> j < length l ->
  exists l', list_swap i j l = Ok l' /\ l' ≡ₚ l /\ length l' = length l.
Proof.
  intros Hi Hj. unfold list_swap.
  destruct (lookup_lt_is_Some_2 l i Hi) as [a Ha].
  destruct (lookup_lt_is_Some_2 l j Hj) as [b Hb].
  rewrite Ha, Hb. eexists. split; [reflexivity |]. split.
  - by apply swap_perm.
  - by rewrite !length_insert.
Qed.

End swapping.

(** ** Character-level mutators *)

Section mutators.

Lemma letters_nonempty : chars letters <> [].
Proof. discriminate. Qed.

(** C8.  For every value and every generator state, [introduce_typo] returns
    a string whose length differs from the length of the value by at most
    one; an empty value is returned as it is, without a draw. *)
Theorem introduce_typo_length (value : string) (g : Random) :
  exists out g',
    introduce_typo value g = Ok (out, g')
    /\ len out <= len value + 1
    /\ len value <= len out + 1
    /\ (value = "" -> out = value /\ g' = g).
Proof.
  unfold introduce_typo.
  destruct (decide (value = "")) as [-> | Hne].
  { exists "", g. split_and!; [done | cbv; lia | cbv; lia | done]. }
  pose proof (len_nonempty value Hne) as Hpos.
  unfold bind at 1.
  destruct (randrange_spec (len value) g Hpos) as (idx & -> & Hidx).
  unfold bind at 1.
  destruct (choice_spec ["delete"; "insert"; "swap"; "replace"] (advance g))
    as (op & -> & _); [done |].
  set (g2 := advance (advance g)).
  destruct (decide (op = "delete")).
  { eexists _, _. split; [reflexivity |].
    rewrite len_app, len_slice_to, len_slice_from. split_and!; [lia | lia | done]. }
  destruct (decide (op = "insert")).
  { unfold bind. destruct (choice_spec (chars letters) g2 letters_nonempty) as (c & -> & _).
    eexists _, _. split; [reflexivity |].
    rewrite !len_app, len_slice_to, len_slice_from.
    change (len (String c "")) with 1. split_and!; [lia | lia | done]. }
  destruct (decide (op = "swap" /\ 1 < len value)).
  { unfold bind, lift.
    destruct (list_swap_spec (chars value) idx (min (idx + 1) (len value - 1)))
      as (l' & -> & _ & Hlen); [done | unfold len in *; lia |].
    eexists _, _. split; [reflexivity |].
    rewrite len_join, Hlen. fold (len value). split_and!; [lia | lia | done]. }
  unfold bind. destruct (choice_spec (chars letters) g2 letters_nonempty) as (c & -> & _).
  eexists _, _. split; [reflexivity |].
  rewrite !len_app, len_slice_to, len_slice_from.
  change (len (String c "")) with 1. split_and!; [lia | lia | done].
Qed.

(** C9.  For every value and every generator state, [swap_two_characters]
    returns a string with the same characters, each as often as in the
    value; a value shorter than two characters is returned as it is. *)
Theorem swap_two_characters_permutation (value : string) (g : Random) :
  exists out g',
    swap_two_characters value g = Ok (out, g')
    /\ chars out ≡ₚ chars value
    /\ (len value < 2 -> out = value /\ g' = g).
Proof.
  unfold swap_two_characters.
  destruct (decide (value = "" \/ len value < 2)) as [Hshort | Hlong].
  { exists value, g. split_and!; done. }
  assert (2 <= len value) as Hlen.
  { destruct (decide (len value < 2)); [tauto | lia]. }
  unfold bind at 1.
  destruct (sample2_spec (len value) g Hlen) as (i & j & -> & Hi & Hj & Hij).
  destruct (decide (i = j)); [done |].
  unfold bind, lift.
  destruct (list_swap_spec (chars value) i j Hi Hj) as (l' & -> & Hperm & _).
  eexists _, _. split; [reflexivity |].
  rewrite chars_join. split; [done | lia].
Qed.

End mutators.

(** ** Noise configuration *)

Section noise_config.

Lemma py_max_Qmax (a b : Q) : py_max a b = Qmax a b.
Proof.
  unfold py_max, Qmax, GenericMinMax.gmax.
  destruct (Qle_bool b a) eqn:Hle, (a ?= b)%Q eqn:Hcmp; try reflexivity.
  - apply Qle_bool_iff in Hle. apply Qlt_alt in Hcmp.
    exfalso. exact (Qlt_not_le _ _ Hcmp Hle).
  - apply Qeq_alt in Hcmp. assert (Qle_bool b a = true) as Hba.
    { apply Qle_bool_iff. rewrite Hcmp. apply Qle_refl. }
    congruence.
  - apply Qgt_alt in Hcmp. assert (Qle_bool b a = true) as Hba.
    { apply Qle_bool_iff. by apply Qlt_le_weak. }
    congruence.
Qed.

Lemma py_min_Qmin (a b : Q) : py_min a b = Qmin a b.
Proof.
  unfold py_min, Qmin, GenericMinMax.gmin.
  destruct (Qle_bool a b) eqn:Hle, (a ?= b)%Q eqn:Hcmp; try reflexivity.
  - apply Qle_bool_iff in Hle. apply Qgt_alt in Hcmp.
    exfalso. exact (Qlt_not_le _ _ Hcmp Hle).
  - apply Qeq_alt in Hcmp. assert (Qle_bool a b = true) as Hab.
    { apply Qle_bool_iff. rewrite Hcmp. apply Qle_refl. }
    congruence.
  - apply Qlt_alt in Hcmp. assert (Qle_bool a b = true) as Hab.
    { apply Qle_bool_iff. by apply Qlt_le_weak. }
    congruence.
Qed.

Lemma clamp_formula (x : Q) : clamp x = Qmax 0 (Qmin x (95 # 100)).
Proof. unfold clamp, clamp_to. by rewrite py_min_Qmin, py_max_Qmax. Qed.

Lemma clamp_range (x : Q) : (0 <= clamp x)%Q /\ (clamp x <= 95 # 100)%Q.
Proof.
  rewrite clamp_formula. split.
  - apply Q.le_max_l.
  - apply Q.max_lub; [done |]. apply Q.le_min_r.
Qed.

Lemma py_int_floor (x : Q) : (0 <= x)%Q -> py_int x = Qfloor x.
Proof.
  destruct x as [n d]. unfold Qle, py_int, Qfloor. simpl. intros Hn.
  apply Z.quot_div_nonneg; lia.
Qed.

Lemma py_maxZ_max (a b : Z) : py_maxZ a b = Z.max a b.
Proof. unfold py_maxZ. destruct (Z.leb_spec b a); lia. Qed.



End noise_config.

(** ** Date parsing *)

Section parsing.

(** C7.  [parse_birthday] tries month/day/year, then day/month/year, then
    ISO, and returns the first parse that succeeds: a value valid under the
    first format is read as month/day/year whatever the second format makes
    of it, and the result is the sentinel exactly when all three fail. *)
Theorem parse_birthday_first_match (value : string) :
  (forall d, strptime value "%m/%d/%Y" = Some d -> parse_birthday value = Some d)
  /\ (forall d, strptime value "%m/%d/%Y" = None ->
                strptime value "%d/%m/%Y" = Some d ->
                parse_birthday value = Some d)
  /\ (forall d, strptime value "%m/%d/%Y" = None ->
                strptime value "%d/%m/%Y" = None ->
                strptime value "%Y-%m-%d" = Some d ->
                parse_birthday value = Some d)
  /\ (parse_birthday value = None <->
      strptime value "%m/%d/%Y" = None
      /\ strptime value "%d/%m/%Y" = None
      /\ strptime value "%Y-%m-%d" = None).
Proof.
  unfold parse_birthday. cbn [first_success].
  destruct (strptime value "%m/%d/%Y") as [d1|];
    destruct (strptime value "%d/%m/%Y") as [d2|];
    destruct (strptime value "%Y-%m-%d") as [d3|];
    split_and!; try split; intros; destruct_and?; simplify_eq; done.
Qed.

(** ["01/02/1990"] parses under both of the first two formats, as 2 January
    and as 1 February; [parse_birthday] reads 2 January. *)
Lemma parse_birthday_first_match_witness :
  strptime "01/02/1990" "%m/%d/%Y" = Some (mkdate 1990 1 2)
  /\ strptime "01/02/1990" "%d/%m/%Y" = Some (mkdate 1990 2 1)
  /\ parse_birthday "01/02/1990" = Some (mkdate 1990 1 2).
Proof.
  split_and!; [vm_compute; reflexivity | vm_compute; reflexivity |].
  apply (proj1 (parse_birthday_first_match "01/02/1990")).
  vm_compute. reflexivity.
Defined.

End parsing.

(** ** Stage order of [mutate_name] *)

Section stages.

Lemma Qltb_lt (x y : Q) : Qltb x y = true <-> (x < y)%Q.
Proof.
  unfold Qltb. rewrite negb_true_iff, <- not_true_iff_false, Qle_bool_iff.
  split; [apply Qnot_le_lt | apply Qlt_not_le].
Qed.

(** C6.  [mutate_name] draws the [missing_prob] gate first.  When it fires
    the result is the empty string and the generator has advanced by that
    one draw only.  Otherwise the stages char_swap, typo, case, whitespace
    and suffix run in this order, each gate drawn in turn and each mutator
    applied to the value the earlier stages produced. *)
Theorem mutate_name_stage_order (value : string) (config : NoiseConfig)
    (g : Random) :
  exists r,
    rng.random g = Ok (r, advance g)
    /\ ((r < missing_prob config)%Q ->
        mutate_name value config g = Ok ("", advance g))
    /\ (~ (r < missing_prob config)%Q ->
        mutate_name value config g
        = run_stages (name_stages config) value (advance g)).
Proof.
  eexists. split; [reflexivity |].
  set (r := (_ # _)%Q). rewrite <- Qltb_lt.
  unfold name_stages, run_stages, stage, mutate_name, gate, bind, ret.
  cbn [rng.random]. fold r.
  destruct (Qltb r (missing_prob config)); split; intros H; done.
Qed.

Lemma mutate_name_stage_order_witness :
  mutate_name "Ann" (build_noise_config 1) (tape_of [0%N])
  = Ok ("", advance (tape_of [0%N])).
Proof.
  destruct (mutate_name_stage_order "Ann" (build_noise_config 1) (tape_of [0%N]))
    as (r & Hr & Hfire & _).
  apply Hfire. injection Hr as <-. vm_compute. reflexivity.
Defined.

End stages.

(** ** Row mutation engine *)

Section row_engine.

Implicit Types row mutated : gmap string string.

Lemma mutate_column_frame row config mutated col g out g' (k : string) :
  mutate_column row config mutated col g = Ok (out, g') ->
  k <> col -> out !! k = mutated !! k.
Proof.
  unfold mutate_column, bind, ret, gate. intros Hrun Hk.
  repeat match type of Hrun with
         | context [if ?b then _ else _] => destruct b
         | context [match parse_birthday ?v with _ => _ end] =>
             destruct (parse_birthday v)
         | context [match ?f ?v ?c ?s with Ok _ => _ | Raise _ => _ end] =>
             destruct (f v c s) as [[? ?]|]
         | context [match rng.random ?s with Ok _ => _ | Raise _ => _ end] =>
             cbn [rng.random] in Hrun
         end; simplify_eq; try done; by rewrite lookup_insert_ne.
Qed.

Lemma mutate_columns_frame row config cols mutated g out g' (k : string) :
  mutate_columns row config cols mutated g = Ok (out, g') ->
  k ∉ cols -> out !! k = mutated !! k.
Proof.
  revert mutated g. induction cols as [|col rest IH]; intros mutated g Hrun Hk.
  - cbn [mutate_columns] in Hrun. unfold ret in Hrun. by simplify_eq.
  - cbn [mutate_columns] in Hrun. unfold bind in Hrun.
    destruct (mutate_column row config mutated col g) as [[m1 g1]|] eqn:Hcol;
      [| done].
    apply not_elem_of_cons in Hk as [Hne Hrest].
    rewrite (IH _ _ Hrun Hrest).
    by apply (mutate_column_frame _ _ _ _ _ _ _ _ Hcol).
Qed.

Lemma swap_names_frame config mutated g out g' (k : string) :
  swap_names config mutated g = Ok (out, g') ->
  k <> "GivenName" -> k <> "Surname" -> out !! k = mutated !! k.
Proof.
  unfold swap_names, bind. destruct (gate_spec (swap_name_prob config) g) as [b ->].
  unfold ret. intros Hrun H1 H2.
  repeat case_match; simplify_eq; try done.
  by rewrite !lookup_insert_ne.
Qed.

Lemma swap_names_draws config mutated g :
  exists out, swap_names config mutated g = Ok (out, advance g)
    /\ (mutated !! "GivenName" = None \/ mutated !! "Surname" = None ->
        out = mutated).
Proof.
  unfold swap_names, bind. destruct (gate_spec (swap_name_prob config) g) as [b ->].
  unfold ret.
  repeat case_match; eexists; (split; [reflexivity |]); intros [?|?]; done.
Qed.

(** The frame of row mutation under the naming conditions it relies on: a
    trailing column keeps its value when its name is neither [GivenName]
    nor [Surname] and does not occur among the columns before the last
    two. *)
Lemma mutate_encoded_row_trailing row fieldnames config g out g' (k : string) :
  mutate_encoded_row row fieldnames config g = Ok (out, g') ->
  k ∉ mutate_fields fieldnames ->
  k <> "GivenName" -> k <> "Surname" ->
  out !! k = row !! k.
Proof.
  unfold mutate_encoded_row, bind. intros Hrun Hk H1 H2.
  destruct (mutate_columns _ _ _ _ _) as [[m1 g1]|] eqn:Hcols; [| done].
  rewrite (swap_names_frame _ _ _ _ _ _ Hrun H1 H2).
  by apply (mutate_columns_frame _ _ _ _ _ _ _ _ Hcols).
Qed.

(** C1.  A two-column schema whose encoding column is called [GivenName]
    and whose uid column is called [Surname]: at noise level 1, with a
    generator whose first draw is below [swap_name_prob], the returned
    record holds the two trailing values exchanged. *)
Theorem mutate_encoded_row_swaps_trailing_columns :
  let row : gmap string string := {[ "GivenName" := "E1"; "Surname" := "U1" ]} in
  exists out g',
    mutate_encoded_row row ["GivenName"; "Surname"] (build_noise_config 1)
                       (tape_of [0%N]) = Ok (out, g')
    /\ out !! "GivenName" = Some "U1" /\ row !! "GivenName" = Some "E1"
    /\ out !! "Surname" = Some "E1" /\ row !! "Surname" = Some "U1".
Proof.
  eexists _, _. split; [vm_compute; reflexivity |].
  split_and!; vm_compute; reflexivity.
Qed.

(** C10.  The swap-name step draws its gate before it looks for the two
    name columns: when the loop over the columns completes, the call
    returns with the generator advanced by exactly one further draw, whether
    or not the record has a [GivenName] and a [Surname] column, and without
    both columns the record is returned as the loop left it.  (When the
    loop raises, the call raises the same exception and the step is not
    reached.) *)
Theorem mutate_encoded_row_gate_draw row (fieldnames : list string)
    (config : NoiseConfig) (g : Random) :
  match mutate_columns row config (mutate_fields fieldnames) row g with
  | Ok (mutated, g1) =>
      exists out,
        mutate_encoded_row row fieldnames config g = Ok (out, advance g1)
        /\ cursor (advance g1) = S (cursor g1)
        /\ (mutated !! "GivenName" = None \/ mutated !! "Surname" = None ->
            out = mutated)
  | Raise e => mutate_encoded_row row fieldnames config g = Raise e
  end.
Proof.
  unfold mutate_encoded_row, bind.
  destruct (mutate_columns _ _ _ _ _) as [[mutated g1]|e]; [| done].
  destruct (swap_names_draws config mutated g1) as (out & Hout & Hsame).
  exists out. split_and!; done.
Qed.

(** A record without name columns and a schema of two trailing columns: the
    loop draws nothing, the gate draws once. *)
Lemma mutate_encoded_row_gate_draw_witness :
  let row : gmap string string := {[ "enc" := "E1"; "uid" := "U1" ]} in
  exists out,
    mutate_encoded_row row ["enc"; "uid"] (build_noise_config 1) (tape_of [0%N])
    = Ok (out, advance (tape_of [0%N]))
    /\ out = row.
Proof.
  intros row.
  destruct (mutate_encoded_row_gate_draw row ["enc"; "uid"] (build_noise_config 1)
              (tape_of [0%N])) as (out & Hout & _ & Hsame).
  exists out. split; [exact Hout |]. apply Hsame. left. reflexivity.
Defined.

End row_engine.

(** ** Record swap engine *)

Section swap_engine.

Implicit Types rows : list (gmap string string).
Implicit Types indices ks : list nat.

Lemma shuffle_from_spec {A} (i : nat) (x : list A) (g : Random) :
  i < length x \/ i = 0 ->
  exists x' g', shuffle_from i x g = Ok (x', g') /\ x' ≡ₚ x.
Proof.
  revert x g. induction i as [|i IH]; intros x g Hi.
  - by exists x, g.
  - destruct Hi as [Hi | ?]; [| done].
    cbn [shuffle_from]. unfold bind at 1.
    destruct (randbelow_spec (S i + 1) g) as (j & -> & Hj); [lia |].
    unfold bind at 1, lift.
    destruct (list_swap_spec x (S i) j) as (x1 & -> & Hperm & Hlen); [lia | lia |].
    destruct (IH x1 (advance g)) as (x' & g' & -> & Hperm'); [lia |].
    exists x', g'. split; [done |]. by rewrite Hperm'.
Qed.

Lemma shuffle_spec {A} (x : list A) (g : Random) :
  exists x' g', shuffle x g = Ok (x', g') /\ x' ≡ₚ x.
Proof.
  unfold shuffle. apply shuffle_from_spec.
  destruct x; [by right | left; simpl; lia].
Qed.

Lemma random_below_one (g : Random) :
  exists r, rng.random g = Ok (r, advance g) /\ Qle_bool 1 r = false.
Proof.
  eexists. split; [reflexivity |].
  apply not_true_iff_false. rewrite Qle_bool_iff. unfold Qle. simpl.
  assert (raw g mod 2 ^ 53 < 2 ^ 53)%N as Hlt by (by apply N.mod_lt).
  assert (Z.of_N (2 ^ 53) = Z.pos (2 ^ 53)) as <- by reflexivity.
  lia.
Qed.

Global Instance same_outside_refl col : Reflexive (same_outside col).
Proof. by intros r c Hc. Qed.

Global Instance same_outside_trans col : Transitive (same_outside col).
Proof. intros r1 r2 r3 H12 H23 c Hc. by rewrite (H23 c Hc), (H12 c Hc). Qed.

Lemma same_outside_insert col (r : gmap string string) (v : string) :
  same_outside col r (<[col:=v]> r).
Proof. intros c Hc. by rewrite lookup_insert_ne. Qed.

Lemma Forall2_same_outside_insert col rows rows' (i : nat)
    (r : gmap string string) (v : string) :
  Forall2 (same_outside col) rows rows' -> rows' !! i = Some r ->
  Forall2 (same_outside col) rows (<[i := <[col:=v]> r]> rows').
Proof.
  intros Hall Hi.
  destruct (Forall2_lookup_r _ _ _ _ _ Hall Hi) as (r0 & Hr0 & Hsame).
  rewrite <- (list_insert_id rows i r0 Hr0).
  apply Forall2_insert; [done |].
  etransitivity; [exact Hsame | apply same_outside_insert].
Qed.

Lemma swap_encodings_frame enc_col (i j : nat) rows rows' :
  swap_encodings enc_col i j rows = Ok rows' ->
  Forall2 (same_outside enc_col) rows rows'.
Proof.
  unfold swap_encodings. intros Hrun.
  repeat case_match; simplify_eq.
  apply Forall2_same_outside_insert; [| done].
  apply Forall2_same_outside_insert; [| done].
  apply Forall_Forall2_diag, Forall_forall. intros; reflexivity.
Qed.

Lemma Forall2_same_outside_trans col rows1 rows2 rows3 :
  Forall2 (same_outside col) rows1 rows2 ->
  Forall2 (same_outside col) rows2 rows3 ->
  Forall2 (same_outside col) rows1 rows3.
Proof.
  intros H12 H23. eapply Forall2_trans; [| exact H12 | exact H23].
  intros r1 r2 r3. apply same_outside_trans.
Qed.

Lemma Forall2_same_outside_refl col rows :
  Forall2 (same_outside col) rows rows.
Proof. apply Forall_Forall2_diag, Forall_forall. intros; reflexivity. Qed.

Lemma swap_loop_frame enc_col (p : Q) indices ks rows g :
  Forall2 (same_outside enc_col) rows
          (rows_after (swap_loop enc_col p indices ks rows g)).
Proof.
  revert rows g. induction ks as [|k ks IH]; intros rows g.
  - apply Forall2_same_outside_refl.
  - cbn [swap_loop rng.random].
    destruct (Qle_bool p _); [apply IH |].
    destruct (pair_at indices k) as [[i j]|]; [| apply Forall2_same_outside_refl].
    destruct (swap_encodings enc_col i j rows) as [rows'|] eqn:Hswap;
      [| apply Forall2_same_outside_refl].
    eapply Forall2_same_outside_trans; [| apply IH].
    by eapply swap_encodings_frame.
Qed.

Lemma pair_list_take indices (m : nat) :
  2 * m <= length indices ->
  flat_map (pair_list indices) (map (fun t => 2 * t) (seq 0 m))
  = take (2 * m) indices
  /\ Forall (fun k => is_Some (pair_at indices k)) (map (fun t => 2 * t) (seq 0 m)).
Proof.
  induction m as [|m IH]; intros Hm.
  - split; [by rewrite take_0 | constructor].
  - destruct IH as [IHflat IHsome]; [lia |].
    rewrite seq_S, map_app, flat_map_app, IHflat. simpl map. simpl flat_map.
    destruct (lookup_lt_is_Some_2 indices (2 * m)) as [a Ha]; [lia |].
    destruct (lookup_lt_is_Some_2 indices (2 * m + 1)) as [b Hb]; [lia |].
    assert (pair_at indices (m + (m + 0)) = Some (a, b)) as Hpair.
    { unfold pair_at. replace (m + (m + 0)) with (2 * m) by lia. by rewrite Ha, Hb. }
    split.
    + unfold pair_list. rewrite Hpair, app_nil_r.
      replace (2 * S m) with (S (S (2 * m))) by lia.
      rewrite (take_S_r indices (S (2 * m)) b) by (by rewrite <- Hb; f_equal; lia).
      rewrite (take_S_r indices (2 * m) a Ha).
      by rewrite <- app_assoc.
    + apply Forall_app. split; [done |]. constructor; [by eexists | constructor].
Qed.

Lemma range_count indices : 2 * ((length indices - 1 + 1) / 2) <= length indices.
Proof.
  destruct (length indices) as [|n]; [done |].
  replace (S n - 1 + 1) with (S n) by lia.
  pose proof (Nat.div_mod_eq (S n) 2). lia.
Qed.

Lemma visited_take indices :
  visited indices = take (2 * ((length indices - 1 + 1) / 2)) indices.
Proof. apply pair_list_take, range_count. Qed.

Lemma visited_NoDup indices : NoDup indices -> NoDup (visited indices).
Proof.
  intros Hnd. rewrite visited_take.
  eapply sublist_NoDup; [exact Hnd | apply sublist_take].
Qed.

Lemma apply_encoding_swaps_unchanged rows (enc_col : string) (p : Q) (g : Random) :
  rows = [] \/ (exists first rest, rows = first :: rest /\ first !! enc_col = None)
  \/ (p <= 0)%Q ->
  apply_encoding_swaps rows enc_col p g = mkswapped rows None g.
Proof.
  intros [-> | [(first & rest & -> & Hnone) | Hp]]; [done | |].
  - unfold apply_encoding_swaps. by rewrite bool_decide_eq_true_2.
  - unfold apply_encoding_swaps. destruct rows; [done |].
    apply Qle_bool_iff in Hp. rewrite Hp. by rewrite orb_true_r.
Qed.

(** C4.  [apply_encoding_swaps] leaves every column other than the encoding
    column as it was in every row, also when an exception escapes; the
    positions the loop visits are pairwise distinct, so a row takes part in
    at most one swap attempt; and nothing changes when the dataset is empty,
    the first row has no encoding column, or the probability is at most 0. *)
Theorem apply_encoding_swaps_frame rows (enc_col : string) (p : Q) (g : Random) :
  let out := apply_encoding_swaps rows enc_col p g in
  Forall2 (same_outside enc_col) rows (rows_after out)
  /\ (exists indices g',
        shuffle (seq 0 (length rows)) g = Ok (indices, g')
        /\ indices ≡ₚ seq 0 (length rows)
        /\ NoDup (visited indices)
        /\ (forall first rest,
              rows = first :: rest -> first !! enc_col <> None -> ~ (p <= 0)%Q ->
              out = swap_loop enc_col p indices
                              (range_by_two (length indices - 1)) rows g'))
  /\ (rows = [] \/ (exists first rest, rows = first :: rest /\ first !! enc_col = None)
      \/ (p <= 0)%Q ->
      out = mkswapped rows None g).
Proof.
  intros out. subst out.
  destruct (shuffle_spec (seq 0 (length rows)) g) as (indices & g' & Hsh & Hperm).
  split_and!.
  - unfold apply_encoding_swaps. destruct rows as [|first rest].
    { apply Forall2_same_outside_refl. }
    destruct (_ || _); [apply Forall2_same_outside_refl |].
    rewrite Hsh. apply swap_loop_frame.
  - exists indices, g'. split_and!; [done | done | |].
    + apply visited_NoDup. rewrite Hperm. apply NoDup_seq.
    + intros first rest -> Hfirst Hp. unfold apply_encoding_swaps.
      rewrite bool_decide_eq_false_2 by done.
      assert (Qle_bool p 0 = false) as ->.
      { apply not_true_iff_false. by rewrite Qle_bool_iff. }
      cbn [orb]. by rewrite Hsh.
  - apply apply_encoding_swaps_unchanged.
Qed.

Lemma apply_encoding_swaps_frame_witness :
  let rows : list (gmap string string) :=
    [ {[ "enc" := "E1"; "uid" := "U1" ]}; {[ "enc" := "E2"; "uid" := "U2" ]} ] in
  apply_encoding_swaps rows "enc" 0 (tape_of []) = mkswapped rows None (tape_of []).
Proof.
  intros rows.
  apply (apply_encoding_swaps_frame rows "enc" 0 (tape_of [])).
  right. right. done.
Defined.

Lemma swap_encodings_exchange enc_col (i j : nat) rows :
  i <> j -> i < length rows -> j < length rows ->
  Forall (fun r => is_Some (r !! enc_col)) rows ->
  exists rows1,
    swap_encodings enc_col i j rows = Ok rows1
    /\ length rows1 = length rows
    /\ Forall (fun r => is_Some (r !! enc_col)) rows1
    /\ (forall v, v <> i -> v <> j -> rows1 !! v = rows !! v)
    /\ value_at enc_col rows1 i = value_at enc_col rows j
    /\ value_at enc_col rows1 j = value_at enc_col rows i.
Proof.
  intros Hij Hi Hj Hall.
  destruct (lookup_lt_is_Some_2 rows i Hi) as [ri Hri].
  destruct (lookup_lt_is_Some_2 rows j Hj) as [rj Hrj].
  destruct (Forall_lookup_1 _ _ _ _ Hall Hri) as [ei Hei].
  destruct (Forall_lookup_1 _ _ _ _ Hall Hrj) as [ej Hej].
  unfold swap_encodings. rewrite Hri, Hrj, Hei, Hej.
  rewrite list_lookup_insert_ne, Hrj by done.
  eexists. split; [reflexivity |]. split_and!.
  - by rewrite !length_insert.
  - apply Forall_insert; [apply Forall_insert; [done |] |];
      rewrite lookup_insert_eq; by eexists.
  - intros v Hvi Hvj. by rewrite !list_lookup_insert_ne.
  - unfold value_at. rewrite list_lookup_insert_ne by done.
    rewrite list_lookup_insert_eq by done. by rewrite lookup_insert_eq, Hrj.
  - unfold value_at.
    rewrite list_lookup_insert_eq by (by rewrite length_insert).
    by rewrite lookup_insert_eq, Hri.
Qed.

Lemma swap_loop_certain enc_col indices ks rows g :
  Forall (fun k => is_Some (pair_at indices k)) ks ->
  NoDup (flat_map (pair_list indices) ks) ->
  Forall (fun v => v < length rows) (flat_map (pair_list indices) ks) ->
  Forall (fun r => is_Some (r !! enc_col)) rows ->
  exists rows' g',
    swap_loop enc_col 1 indices ks rows g = mkswapped rows' None g'
    /\ length rows' = length rows
    /\ (forall v, v ∉ flat_map (pair_list indices) ks -> rows' !! v = rows !! v)
    /\ (forall v, v ∈ flat_map (pair_list indices) ks ->
          exists w, w ∈ flat_map (pair_list indices) ks /\ w <> v
                    /\ value_at enc_col rows' v = value_at enc_col rows w
                    /\ value_at enc_col rows' w = value_at enc_col rows v).
Proof.
  revert rows g. induction ks as [|k ks IH]; intros rows g Hsome Hnd Hlt Hall.
  { exists rows, g. split_and!; try done. intros v Hv. by apply elem_of_nil in Hv. }
  apply Forall_cons in Hsome as [[[i j] Hpair] Hsome].
  assert (pair_list indices k = [i; j]) as Hpl
    by (unfold pair_list; by rewrite Hpair).
  cbn [flat_map] in *. rewrite Hpl in *. cbn [app] in *.
  apply NoDup_cons in Hnd as [Hi Hnd]. apply NoDup_cons in Hnd as [Hj Hnd].
  apply Forall_cons in Hlt as [Hilt Hlt]. apply Forall_cons in Hlt as [Hjlt Hlt].
  assert (i <> j) as Hij by (intros ->; apply Hi; left).
  assert (i ∉ flat_map (pair_list indices) ks) as Hi'
    by (intros ?; apply Hi; by right).
  cbn [swap_loop].
  destruct (random_below_one g) as (r & -> & ->). rewrite Hpair.
  destruct (swap_encodings_exchange enc_col i j rows Hij Hilt Hjlt Hall)
    as (rows1 & -> & Hlen1 & Hall1 & Hother1 & Hi1 & Hj1).
  destruct (IH rows1 (advance g) Hsome Hnd) as (rows' & g' & -> & Hlen & Hout & Hin);
    [by rewrite Hlen1 | done |].
  assert (forall v, v ∈ flat_map (pair_list indices) ks ->
                    value_at enc_col rows1 v = value_at enc_col rows v) as Hsame.
  { intros v Hv. unfold value_at. rewrite Hother1; [done | |]; by intros ->. }
  exists rows', g'. split_and!; [done | by rewrite Hlen | |].
  - intros v Hv. apply not_elem_of_cons in Hv as [Hvi Hv].
    apply not_elem_of_cons in Hv as [Hvj Hv].
    rewrite (Hout v Hv). by apply Hother1.
  - intros v Hv. apply elem_of_cons in Hv as [-> | Hv];
      [| apply elem_of_cons in Hv as [-> | Hv]].
    + exists j. split_and!; [by right; left | done | |];
        unfold value_at; rewrite (Hout _ Hi') || rewrite (Hout _ Hj); done.
    + exists i. split_and!; [by left | done | |];
        unfold value_at; rewrite (Hout _ Hi') || rewrite (Hout _ Hj); done.
    + destruct (Hin v Hv) as (w & Hw & Hwv & Hvw1 & Hwv1).
      exists w. split_and!; [by do 2 right | done | |].
      * by rewrite Hvw1, (Hsame w Hw).
      * by rewrite Hwv1, (Hsame v Hv).
Qed.

Lemma apply_encoding_swaps_all_pairs rows (enc_col : string) (g : Random) :
  length rows mod 2 = 0 ->
  Forall (fun r => is_Some (r !! enc_col)) rows ->
  exists rows' g',
    apply_encoding_swaps rows enc_col 1 g = mkswapped rows' None g'
    /\ length rows' = length rows
    /\ (forall i, i < length rows ->
          exists j, j < length rows /\ j <> i
            /\ value_at enc_col rows' i = value_at enc_col rows j
            /\ value_at enc_col rows' j = value_at enc_col rows i).
Proof.
  intros Heven Hall. unfold apply_encoding_swaps.
  destruct rows as [|first rest] eqn:Hrows.
  { exists [], g. split_and!; [done | done |]. intros i Hi. simpl in Hi. lia. }
  rewrite <- Hrows in *.
  assert (first !! enc_col <> None) as Hfirst.
  { rewrite Hrows in Hall. apply Forall_cons in Hall as [[? ->] _]. done. }
  rewrite bool_decide_eq_false_2 by done.
  change (Qle_bool 1 0) with false. cbn [orb].
  destruct (shuffle_spec (seq 0 (length rows)) g) as (indices & g' & -> & Hperm).
  assert (length indices = length rows) as Hlen by (by rewrite Hperm, length_seq).
  assert (visited indices = indices) as Hvis.
  { rewrite visited_take. apply take_ge. rewrite Hlen.
    replace (length rows - 1 + 1) with (length rows) by (rewrite Hrows; simpl; lia).
    pose proof (Nat.div_mod_eq (length rows) 2). lia. }
  destruct (swap_loop_certain enc_col indices
              (range_by_two (length indices - 1)) rows g')
    as (rows' & g'' & -> & Hlen' & _ & Hin).
  - apply pair_list_take, range_count.
  - fold (visited indices). rewrite Hvis, Hperm. apply NoDup_seq.
  - fold (visited indices). rewrite Hvis, Hperm. apply Forall_forall.
    intros v Hv%elem_of_seq. lia.
  - done.
  - fold (visited indices) in Hin. rewrite Hvis in Hin.
    exists rows', g''. split_and!; [done | done |].
    intros i Hi.
    destruct (Hin i) as (w & Hw & Hwi & Hiw & Hwi').
    { rewrite Hperm. apply elem_of_seq. lia. }
    exists w. split_and!; try done.
    rewrite Hperm in Hw. apply elem_of_seq in Hw. lia.
Qed.

(** C5.  With an even number of rows, each holding the encoding column, and
    probability 1, no exception escapes and every row is paired with another
    row whose pre-swap encoding it now holds, and conversely: its encoding
    differs from its pre-swap value unless the two paired rows held equal
    encodings.  With probability 0 nothing changes. *)
Theorem apply_encoding_swaps_extremes rows (enc_col : string) (g : Random) :
  length rows mod 2 = 0 ->
  Forall (fun r => is_Some (r !! enc_col)) rows ->
  let out := apply_encoding_swaps rows enc_col 1 g in
  escaped out = None
  /\ length (rows_after out) = length rows
  /\ (forall i, i < length rows ->
        exists j, j < length rows /\ j <> i
          /\ value_at enc_col (rows_after out) i = value_at enc_col rows j
          /\ value_at enc_col (rows_after out) j = value_at enc_col rows i
          /\ (value_at enc_col rows j <> value_at enc_col rows i ->
              value_at enc_col (rows_after out) i <> value_at enc_col rows i))
  /\ apply_encoding_swaps rows enc_col 0 g = mkswapped rows None g.
Proof.
  intros Heven Hall out. subst out.
  destruct (apply_encoding_swaps_all_pairs rows enc_col g Heven Hall)
    as (rows' & g' & -> & Hlen & Hpairs).
  cbn [escaped rows_after]. split_and!; [done | done | |].
  - intros i Hi. destruct (Hpairs i Hi) as (j & Hj & Hji & Hij & Hji').
    exists j. split_and!; try done. by rewrite Hij.
  - apply apply_encoding_swaps_unchanged. right. right. done.
Qed.

Lemma apply_encoding_swaps_extremes_witness :
  let rows : list (gmap string string) :=
    [ {[ "enc" := "E1"; "uid" := "U1" ]}; {[ "enc" := "E2"; "uid" := "U2" ]} ] in
  escaped (apply_encoding_swaps rows "enc" 1 (tape_of [])) = None.
Proof.
  intros rows.
  apply (apply_encoding_swaps_extremes rows "enc" (tape_of [])).
  - reflexivity.
  - repeat constructor; by eexists.
Defined.

End swap_engine.

(** ** Date rendering and re-parsing *)

Section rendering.

Ltac close_match :=
  try match goal with
      | |- context [match ?K ?a ?r with Some _ => _ | None => _ end] =>
          destruct (K a r)
      end; reflexivity.

Ltac kill_rejected HK :=
  repeat match goal with
         | |- context [?K ?a (?x :: ?r)] => rewrite (HK a x r) by reflexivity
         end.
Lemma field_m K acc m txt x rest :
  rejects_digits K -> (1 <= m <= 12)%Z ->
  txt = pad2 m \/ txt = short2 m ->
  x = "/"%char \/ x = "-"%char \/ x = " "%char ->
  regex_step Tm K acc (txt ++ x :: rest) = K (mkfields (fY acc) m (fd acc)) (x :: rest).
Proof.
  intros HK Hm Htxt Hx. unfold rejects_digits in HK.
  assert (m = 1 \/ m = 2 \/ m = 3 \/ m = 4 \/ m = 5 \/ m = 6 \/ m = 7 \/ m = 8 \/ m = 9 \/ m = 10 \/ m = 11 \/ m = 12)%Z as Hcases by lia.
  destruct_or!; subst; vm_compute; kill_rejected HK; close_match.
Qed.

Lemma field_d K acc d txt x rest :
  rejects_digits K -> (1 <= d <= 31)%Z ->
  txt = pad2 d \/ txt = short2 d ->
  x = "/"%char \/ x = "-"%char \/ x = " "%char ->
  regex_step Td K acc (txt ++ x :: rest) = K (mkfields (fY acc) (fm acc) d) (x :: rest).
Proof.
  intros HK Hm Htxt Hx. unfold rejects_digits in HK.
  assert (exists n, d = Z.of_nat n /\ n < 32) as (n & -> & Hn) by (exists (Z.to_nat d); lia).
  do 32 (destruct n as [|n]; [try lia; destruct_or!; subst; vm_compute; kill_rejected HK; close_match |]).
  lia.
Qed.

Lemma digit_cases (x : ascii) : is_digit x = true ->
  x ∈ ["0"; "1"; "2"; "3"; "4"; "5"; "6"; "7"; "8"; "9"]%char.
Proof.
  destruct x as [[] [] [] [] [] [] [] []]; vm_compute; intros H; try discriminate H;
    repeat constructor.
Qed.

Lemma digit_char (k : Z) : (0 <= k < 10)%Z ->
  is_digit (digit k) = true
  /\ (Z.of_nat (nat_of_ascii (digit k)) - 48 = k)%Z
  /\ is_word (digit k) = true
  /\ is_space (digit k) = false
  /\ (digit k = "/"%char -> False)
  /\ ((1 <= k)%Z -> digit k = "0"%char -> False).
Proof.
  intros H.
  assert (k = 0 \/ k = 1 \/ k = 2 \/ k = 3 \/ k = 4 \/ k = 5 \/ k = 6 \/ k = 7
          \/ k = 8 \/ k = 9)%Z as Hk by lia.
  destruct_or!; subst; split_and!; try reflexivity; try discriminate; lia.
Qed.

Lemma lit_same K acc c rest :
  c = "/"%char \/ c = "-"%char ->
  regex_step (Tlit c) K acc (c :: rest) = K acc rest.
Proof. intros [-> | ->]; reflexivity. Qed.

Lemma lit_rejects_digits K c :
  c = "/"%char \/ c = "-"%char -> rejects_digits (regex_step (Tlit c) K).
Proof.
  intros Hc acc x r Hx. apply digit_cases in Hx.
  repeat (apply elem_of_cons in Hx as [-> | Hx]; [destruct Hc as [-> | ->]; reflexivity |]).
  by apply elem_of_nil in Hx.
Qed.

Lemma space_rejects_digits K : rejects_digits (regex_step Tspace K).
Proof.
  intros acc x r Hx. apply digit_cases in Hx.
  repeat (apply elem_of_cons in Hx as [-> | Hx]; [reflexivity |]).
  by apply elem_of_nil in Hx.
Qed.

Lemma space_then_digit K acc x rest :
  is_digit x = true -> regex_step Tspace K acc (" "%char :: x :: rest) = K acc (x :: rest).
Proof.
  intros Hx. apply digit_cases in Hx.
  repeat (apply elem_of_cons in Hx as [-> | Hx]; [vm_compute; close_match |]).
  by apply elem_of_nil in Hx.
Qed.

Lemma space_then_month K acc m rest :
  (1 <= m <= 12)%Z ->
  regex_step Tspace (regex_step Tb K) acc
    (" "%char :: chars (nth (Z.to_nat (m - 1)) month_abbr "") ++ rest)
  = K (mkfields (fY acc) m (fd acc)) rest.
Proof.
  intros Hm.
  assert (m = 1 \/ m = 2 \/ m = 3 \/ m = 4 \/ m = 5 \/ m = 6 \/ m = 7 \/ m = 8
          \/ m = 9 \/ m = 10 \/ m = 11 \/ m = 12)%Z as Hcases by lia.
  destruct_or!; subst; vm_compute; close_match.
Qed.

Lemma day_at_end acc d txt :
  (1 <= d <= 31)%Z -> txt = pad2 d \/ txt = short2 d ->
  regex_step Td (regex_match []) acc txt = Some (mkfields (fY acc) (fm acc) d, []).
Proof.
  intros Hd Htxt.
  assert (exists n, d = Z.of_nat n /\ n < 32) as (n & -> & Hn) by (exists (Z.to_nat d); lia).
  do 32 (destruct n as [|n]; [try lia; destruct_or!; subst; vm_compute; reflexivity |]).
  lia.
Qed.

Lemma py_int_of_pad4 (y : Z) : (0 <= y <= 9999)%Z -> py_int_of (pad4 y) = y.
Proof.
  intros Hy. unfold pad4, py_int_of. cbn [fold_left].
  destruct (digit_char (y / 1000 mod 10)) as (-> & -> & _); [Z.div_mod_to_equations; lia |].
  destruct (digit_char (y / 100 mod 10)) as (-> & -> & _); [Z.div_mod_to_equations; lia |].
  destruct (digit_char (y / 10 mod 10)) as (-> & -> & _); [Z.div_mod_to_equations; lia |].
  destruct (digit_char (y mod 10)) as (-> & -> & _); [Z.div_mod_to_equations; lia |].
  Z.div_mod_to_equations; lia.
Qed.

Lemma year_field K acc y rest :
  (0 <= y <= 9999)%Z ->
  regex_step TY K acc (pad4 y ++ rest) = K (mkfields y (fm acc) (fd acc)) rest.
Proof.
  intros Hy. unfold regex_step, alts_Y. cbn [first_success].
  assert (match_alt [is_digit; is_digit; is_digit; is_digit] (pad4 y ++ rest)
          = Some (pad4 y, rest)) as ->.
  { unfold pad4. cbn [app match_alt].
    destruct (digit_char (y / 1000 mod 10)) as (-> & _); [Z.div_mod_to_equations; lia |].
    destruct (digit_char (y / 100 mod 10)) as (-> & _); [Z.div_mod_to_equations; lia |].
    destruct (digit_char (y / 10 mod 10)) as (-> & _); [Z.div_mod_to_equations; lia |].
    destruct (digit_char (y mod 10)) as (-> & _); [Z.div_mod_to_equations; lia |].
    reflexivity. }
  rewrite py_int_of_pad4 by done. close_match.
Qed.

(** *** Dropping leading zeros *)
Lemma strip_after_word c s :
  strip_zero_go true (c :: s) = c :: strip_zero_go (is_word c) s.
Proof. destruct s; reflexivity. Qed.

Lemma strip_nonzero c s :
  c <> "0"%char -> strip_zero_go false (c :: s) = c :: strip_zero_go (is_word c) s.
Proof.
  intros Hc. destruct s; [reflexivity |]. cbn [strip_zero_go negb andb].
  by rewrite bool_decide_eq_false_2.
Qed.

Lemma strip_zero_hit x s :
  is_digit x = true -> strip_zero_go false ("0"%char :: x :: s) = x :: strip_zero_go true s.
Proof. intros Hx. cbn [strip_zero_go negb andb]. by rewrite bool_decide_eq_true_2, Hx. Qed.

Lemma strip_field n s :
  (1 <= n <= 31)%Z ->
  strip_zero_go false (pad2 n ++ s) = short2 n ++ strip_zero_go true s.
Proof.
  intros Hn. unfold pad2, short2. cbn [app].
  destruct (digit_char (n mod 10)) as (Hd & _ & Hw & _); [Z.div_mod_to_equations; lia |].
  destruct (Z.ltb_spec n 10).
  - replace (n / 10 mod 10)%Z with 0%Z by (Z.div_mod_to_equations; lia).
    change (digit 0) with "0"%char. by rewrite strip_zero_hit.
  - destruct (digit_char (n / 10 mod 10)) as (_ & _ & Ha & _ & _ & Hnz);
      [Z.div_mod_to_equations; lia |].
    rewrite strip_nonzero
      by (intros H0; apply Hnz; [Z.div_mod_to_equations; lia | exact H0]).
    by rewrite Ha, strip_after_word, Hw.
Qed.

Lemma strip_abbr m s :
  (1 <= m <= 12)%Z ->
  strip_zero_go false (chars (nth (Z.to_nat (m - 1)) month_abbr "") ++ s)
  = chars (nth (Z.to_nat (m - 1)) month_abbr "") ++ strip_zero_go true s.
Proof.
  intros Hm.
  assert (m = 1 \/ m = 2 \/ m = 3 \/ m = 4 \/ m = 5 \/ m = 6 \/ m = 7 \/ m = 8
          \/ m = 9 \/ m = 10 \/ m = 11 \/ m = 12)%Z as Hcases by lia.
  destruct_or!; subst;
    (set (a := chars _); vm_compute in a; subst a; cbn [app];
     rewrite strip_nonzero by discriminate; rewrite !strip_after_word; reflexivity).
Qed.

Lemma strip_year y s :
  (1000 <= y <= 9999)%Z ->
  strip_zero_go false (pad4 y ++ s) = pad4 y ++ strip_zero_go true s.
Proof.
  intros Hy. unfold pad4. cbn [app].
  destruct (digit_char (y / 1000 mod 10)) as (_ & _ & Ha & _ & _ & Hnz);
    [Z.div_mod_to_equations; lia |].
  destruct (digit_char (y / 100 mod 10)) as (_ & _ & Hb & _); [Z.div_mod_to_equations; lia |].
  destruct (digit_char (y / 10 mod 10)) as (_ & _ & Hc & _); [Z.div_mod_to_equations; lia |].
  destruct (digit_char (y mod 10)) as (_ & _ & He & _); [Z.div_mod_to_equations; lia |].
  rewrite strip_nonzero by (intros H0; apply Hnz; [Z.div_mod_to_equations; lia | exact H0]).
  rewrite Ha, strip_after_word, Hb, strip_after_word, Hc, strip_after_word, He.
  reflexivity.
Qed.

(** *** Replacing the separator *)
Lemma slash_dash_digit k : (0 <= k < 10)%Z -> (replace_char "/" "-") (digit k) = digit k.
Proof.
  intros Hk. unfold replace_char. destruct (decide _) as [Heq|]; [| done].
  destruct (digit_char k Hk) as (_ & _ & _ & _ & Hne & _). by destruct Hne.
Qed.

Lemma slash_dash_pad2 n : (0 <= n)%Z -> map (replace_char "/" "-") (pad2 n) = pad2 n.
Proof.
  intros Hn. unfold pad2. cbn [map].
  by rewrite !slash_dash_digit by (Z.div_mod_to_equations; lia).
Qed.

Lemma slash_dash_short2 n : (0 <= n)%Z -> map (replace_char "/" "-") (short2 n) = short2 n.
Proof.
  intros Hn. unfold short2. destruct (n <? 10)%Z; [| by apply slash_dash_pad2].
  cbn [map]. by rewrite slash_dash_digit by (Z.div_mod_to_equations; lia).
Qed.

Lemma slash_dash_pad4 n : (0 <= n)%Z -> map (replace_char "/" "-") (pad4 n) = pad4 n.
Proof.
  intros Hn. unfold pad4. cbn [map].
  by rewrite !slash_dash_digit by (Z.div_mod_to_equations; lia).
Qed.

Lemma slash_dash_abbr m :
  map (replace_char "/" "-") (chars (nth (Z.to_nat (m - 1)) month_abbr ""))
  = chars (nth (Z.to_nat (m - 1)) month_abbr "").
Proof.
  destruct (Z.to_nat (m - 1)) as [|k]; [reflexivity |].
  do 12 (destruct k as [|k]; [reflexivity |]). reflexivity.
Qed.

(** *** Calendar arithmetic *)
Lemma valid_date_iff d :
  valid_date d = true <->
  (1 <= year d <= 9999 /\ 1 <= month d <= 12
   /\ 1 <= day d <= days_in_month (year d) (month d))%Z.
Proof. unfold valid_date. rewrite !andb_true_iff, !Z.leb_le. lia. Qed.

Lemma days_in_month_bounds y m :
  (1 <= m <= 12)%Z -> (28 <= days_in_month y m <= 31)%Z.
Proof.
  intros Hm.
  assert (m = 1 \/ m = 2 \/ m = 3 \/ m = 4 \/ m = 5 \/ m = 6 \/ m = 7 \/ m = 8
          \/ m = 9 \/ m = 10 \/ m = 11 \/ m = 12)%Z as Hcases by lia.
  destruct_or!; subst; cbn; try destruct (is_leap y); lia.
Qed.

Lemma next_day_valid d :
  valid_date d = true -> (year d < 9999)%Z ->
  exists d', next_day d = Some d' /\ valid_date d' = true
             /\ (year d <= year d' <= year d + 1)%Z.
Proof.
  rewrite valid_date_iff. intros (Hy & Hm & Hd) Hlt. unfold next_day.
  destruct (Z.ltb_spec (day d) (days_in_month (year d) (month d))).
  { eexists. split; [done |]. rewrite valid_date_iff. cbn. lia. }
  destruct (Z.ltb_spec (month d) 12).
  { eexists. split; [done |]. rewrite valid_date_iff. cbn.
    pose proof (days_in_month_bounds (year d) (month d + 1)). lia. }
  destruct (Z.ltb_spec (year d) 9999); [| lia].
  eexists. split; [done |]. rewrite valid_date_iff. cbn. lia.
Qed.

Lemma prev_day_valid d :
  valid_date d = true -> (1 < year d)%Z ->
  exists d', prev_day d = Some d' /\ valid_date d' = true
             /\ (year d - 1 <= year d' <= year d)%Z.
Proof.
  rewrite valid_date_iff. intros (Hy & Hm & Hd) Hlt. unfold prev_day.
  destruct (Z.ltb_spec 1 (day d)).
  { eexists. split; [done |]. rewrite valid_date_iff. cbn. lia. }
  destruct (Z.ltb_spec 1 (month d)).
  { eexists. split; [done |]. rewrite valid_date_iff. cbn.
    pose proof (days_in_month_bounds (year d) (month d - 1)). lia. }
  destruct (Z.ltb_spec 1 (year d)); [| lia].
  eexists. split; [done |]. rewrite valid_date_iff. cbn. lia.
Qed.

Lemma iter_next_valid n d :
  valid_date d = true -> (year d + Z.of_nat n <= 9999)%Z ->
  exists d', iter_days next_day n d = Some d' /\ valid_date d' = true
             /\ (year d <= year d' <= year d + Z.of_nat n)%Z.
Proof.
  revert d. induction n as [|n IH]; intros d Hv Hy.
  { exists d. split_and!; try done; lia. }
  destruct (next_day_valid d Hv) as (d1 & H1 & Hv1 & Hy1); [lia |].
  destruct (IH d1 Hv1) as (d' & H' & Hv' & Hy'); [lia |].
  exists d'. cbn [iter_days]. rewrite H1. split_and!; try done; lia.
Qed.

Lemma iter_prev_valid n d :
  valid_date d = true -> (1 <= year d - Z.of_nat n)%Z ->
  exists d', iter_days prev_day n d = Some d' /\ valid_date d' = true
             /\ (year d - Z.of_nat n <= year d' <= year d)%Z.
Proof.
  revert d. induction n as [|n IH]; intros d Hv Hy.
  { exists d. split_and!; try done; lia. }
  destruct (prev_day_valid d Hv) as (d1 & H1 & Hv1 & Hy1); [lia |].
  destruct (IH d1 Hv1) as (d' & H' & Hv' & Hy'); [lia |].
  exists d'. cbn [iter_days]. rewrite H1. split_and!; try done; lia.
Qed.

Lemma add_days_valid d delta :
  valid_date d = true ->
  (1 <= year d - Z.abs delta)%Z -> (year d + Z.abs delta <= 9999)%Z ->
  exists d', add_days d delta = Ok d' /\ valid_date d' = true
             /\ (year d - Z.abs delta <= year d' <= year d + Z.abs delta)%Z.
Proof.
  intros Hv Hlo Hhi. unfold add_days. destruct (Z.leb_spec 0 delta).
  - destruct (iter_next_valid (Z.to_nat delta) d Hv) as (d' & -> & Hv' & Hy'); [lia |].
    exists d'. split_and!; try done; lia.
  - destruct (iter_prev_valid (Z.to_nat (- delta)) d Hv) as (d' & -> & Hv' & Hy'); [lia |].
    exists d'. split_and!; try done; lia.
Qed.

(** *** What [strftime] renders *)
Lemma strftime_mdY d :
  chars (strftime d "%m/%d/%Y")
  = pad2 (month d) ++ "/"%char :: pad2 (day d) ++ "/"%char :: pad4 (year d).
Proof.
  unfold strftime. rewrite chars_join.
  rewrite <- (app_nil_r (pad4 _)). reflexivity.
Qed.

Lemma strftime_mdY_dash d :
  chars (strftime d "%m-%d-%Y")
  = pad2 (month d) ++ "-"%char :: pad2 (day d) ++ "-"%char :: pad4 (year d).
Proof.
  unfold strftime. rewrite chars_join.
  rewrite <- (app_nil_r (pad4 _)). reflexivity.
Qed.

Lemma strftime_dmY d :
  chars (strftime d "%d/%m/%Y")
  = pad2 (day d) ++ "/"%char :: pad2 (month d) ++ "/"%char :: pad4 (year d).
Proof.
  unfold strftime. rewrite chars_join.
  rewrite <- (app_nil_r (pad4 _)). reflexivity.
Qed.

Lemma strftime_Ymd d :
  chars (strftime d "%Y-%m-%d")
  = pad4 (year d) ++ "-"%char :: pad2 (month d) ++ "-"%char :: pad2 (day d).
Proof.
  unfold strftime. rewrite chars_join.
  rewrite <- (app_nil_r (pad2 (day d))). reflexivity.
Qed.

Lemma strftime_dbY d :
  chars (strftime d "%d %b %Y")
  = pad2 (day d) ++ " "%char :: chars (nth (Z.to_nat (month d - 1)) month_abbr "")
      ++ " "%char :: pad4 (year d).
Proof.
  unfold strftime. rewrite chars_join.
  rewrite <- (app_nil_r (pad4 _)). reflexivity.
Qed.

(** *** Whole formats *)
Lemma strip_year_end y :
  (1000 <= y <= 9999)%Z -> strip_zero_go false (pad4 y) = pad4 y.
Proof.
  intros Hy. rewrite <- (app_nil_r (pad4 y)) at 1. rewrite strip_year by done.
  by rewrite app_nil_r.
Qed.

Lemma strip_field_end n :
  (1 <= n <= 31)%Z -> strip_zero_go false (pad2 n) = short2 n.
Proof.
  intros Hn. rewrite <- (app_nil_r (pad2 n)). rewrite strip_field by done.
  by rewrite app_nil_r.
Qed.

Lemma strip_two_fields_year sep a b y :
  sep = "/"%char \/ sep = "-"%char ->
  (1 <= a <= 31)%Z -> (1 <= b <= 31)%Z -> (1000 <= y <= 9999)%Z ->
  strip_zero_go false (pad2 a ++ sep :: pad2 b ++ sep :: pad4 y)
  = short2 a ++ sep :: short2 b ++ sep :: pad4 y.
Proof.
  intros Hsep Ha Hb Hy.
  rewrite strip_field, strip_after_word by done.
  replace (is_word sep) with false by (by destruct Hsep as [-> | ->]).
  rewrite strip_field, strip_after_word by done.
  replace (is_word sep) with false by (by destruct Hsep as [-> | ->]).
  by rewrite strip_year_end.
Qed.

Lemma strip_year_two_fields a b y :
  (1 <= a <= 31)%Z -> (1 <= b <= 31)%Z -> (1000 <= y <= 9999)%Z ->
  strip_zero_go false (pad4 y ++ "-"%char :: pad2 a ++ "-"%char :: pad2 b)
  = pad4 y ++ "-"%char :: short2 a ++ "-"%char :: short2 b.
Proof.
  intros Ha Hb Hy.
  rewrite strip_year, strip_after_word by done. change (is_word "-") with false.
  rewrite strip_field, strip_after_word by done. change (is_word "-") with false.
  by rewrite strip_field_end.
Qed.

Lemma strip_day_month_year d m y :
  (1 <= d <= 31)%Z -> (1 <= m <= 12)%Z -> (1000 <= y <= 9999)%Z ->
  strip_zero_go false
    (pad2 d ++ " "%char :: chars (nth (Z.to_nat (m - 1)) month_abbr "")
       ++ " "%char :: pad4 y)
  = short2 d ++ " "%char :: chars (nth (Z.to_nat (m - 1)) month_abbr "")
      ++ " "%char :: pad4 y.
Proof.
  intros Hd Hm Hy.
  rewrite strip_field, strip_after_word by done. change (is_word " ") with false.
  rewrite strip_abbr, strip_after_word by done. change (is_word " ") with false.
  by rewrite strip_year_end.
Qed.

Lemma match_two_fields_year t1 t2 sep acc a b ta tb y :
  (t1 = Tm /\ t2 = Td /\ (1 <= a <= 12)%Z /\ (1 <= b <= 31)%Z)
  \/ (t1 = Td /\ t2 = Tm /\ (1 <= a <= 31)%Z /\ (1 <= b <= 12)%Z) ->
  sep = "/"%char \/ sep = "-"%char ->
  ta = pad2 a \/ ta = short2 a -> tb = pad2 b \/ tb = short2 b ->
  (0 <= y <= 9999)%Z ->
  regex_match [t1; Tlit sep; t2; Tlit sep; TY] acc (ta ++ sep :: tb ++ sep :: pad4 y)
  = Some (match t1 with
          | Tm => mkfields y a b
          | _ => mkfields y b a
          end, []).
Proof.
  intros Hts Hsep Hta Htb Hy. cbn [regex_match].
  assert (sep = "/"%char \/ sep = "-"%char \/ sep = " "%char) as Hsep3 by tauto.
  destruct Hts as [(-> & -> & Ha & Hb) | (-> & -> & Ha & Hb)].
  - rewrite (field_m _ _ a); [| by apply lit_rejects_digits | done..].
    rewrite lit_same by done.
    rewrite (field_d _ _ b); [| by apply lit_rejects_digits | done..].
    rewrite lit_same by done.
    rewrite <- (app_nil_r (pad4 y)), year_field by done. reflexivity.
  - rewrite (field_d _ _ a); [| by apply lit_rejects_digits | done..].
    rewrite lit_same by done.
    rewrite (field_m _ _ b); [| by apply lit_rejects_digits | done..].
    rewrite lit_same by done.
    rewrite <- (app_nil_r (pad4 y)), year_field by done. reflexivity.
Qed.

Lemma match_year_two_fields acc m d tm td y :
  (1 <= m <= 12)%Z -> (1 <= d <= 31)%Z ->
  tm = pad2 m \/ tm = short2 m -> td = pad2 d \/ td = short2 d ->
  (0 <= y <= 9999)%Z ->
  regex_match [TY; Tlit "-"; Tm; Tlit "-"; Td] acc
              (pad4 y ++ "-"%char :: tm ++ "-"%char :: td)
  = Some (mkfields y m d, []).
Proof.
  intros Hm Hd Htm Htd Hy. cbn [regex_match].
  rewrite year_field by done. rewrite lit_same by tauto.
  rewrite (field_m _ _ m); [| apply lit_rejects_digits; tauto | done | done | tauto].
  rewrite lit_same by tauto.
  by rewrite (day_at_end _ d).
Qed.

Lemma match_day_month_year acc m d td y :
  (1 <= m <= 12)%Z -> (1 <= d <= 31)%Z ->
  td = pad2 d \/ td = short2 d -> (0 <= y <= 9999)%Z ->
  regex_match [Td; Tspace; Tb; Tspace; TY] acc
    (td ++ " "%char :: chars (nth (Z.to_nat (m - 1)) month_abbr "")
        ++ " "%char :: pad4 y)
  = Some (mkfields y m d, []).
Proof.
  intros Hm Hd Htd Hy. cbn [regex_match].
  rewrite (field_d _ _ d); [| apply space_rejects_digits | done | done | tauto].
  rewrite space_then_month by done.
  unfold pad4 at 1. cbn [app fY fm fd].
  rewrite space_then_digit
    by (apply digit_char; Z.div_mod_to_equations; lia).
  change (?a :: ?b :: ?c :: [?e]) with (pad4 y).
  rewrite <- (app_nil_r (pad4 y)), year_field by done. reflexivity.
Qed.

Lemma strptime_tokens fmt ts l y m d :
  tokens_go false (chars fmt) = Some ts ->
  regex_match ts (mkfields 1900 1 1) l = Some (mkfields y m d, []) ->
  valid_date (mkdate y m d) = true ->
  strptime (join l) fmt = Some (mkdate y m d).
Proof.
  intros Hts Hmatch Hvalid. unfold strptime.
  rewrite Hts, chars_join, Hmatch. cbn [fY fm fd]. by rewrite Hvalid.
Qed.

Lemma map_two_seps (f : ascii -> ascii) a sep b c :
  map f (a ++ sep :: b ++ sep :: c) = map f a ++ f sep :: map f b ++ f sep :: map f c.
Proof. by rewrite map_app, map_cons, map_app, map_cons. Qed.

Lemma render_reparses dt fmt s :
  valid_date dt = true -> (1000 <= year dt)%Z -> fmt ∈ output_formats ->
  s = strftime dt fmt
  \/ s = strip_leading_zeros (strftime dt fmt)
  \/ s = str_replace "/" "-" (strip_leading_zeros (strftime dt fmt)) ->
  exists f, f ∈ output_formats ++ ["%d-%m-%Y"] /\ strptime s f = Some dt.
Proof.
  intros Hvalid Hyear Hfmt Hs.
  pose proof Hvalid as Hv. apply valid_date_iff in Hv.
  destruct dt as [y m d]. cbn [year month day] in *.
  destruct Hv as (Hy & Hm & Hd).
  pose proof (days_in_month_bounds y m Hm) as Hdim.
  assert (1 <= d <= 31)%Z as Hd31 by lia.
  assert (1 <= m <= 31)%Z as Hm31 by lia.
  assert (1000 <= y <= 9999)%Z as Hy4 by lia.
  assert (0 <= y <= 9999)%Z as Hy0 by lia.
  unfold strip_leading_zeros, str_replace in Hs.
  unfold output_formats in Hfmt.
  repeat (apply elem_of_cons in Hfmt as [-> | Hfmt]); [| | | | | by apply elem_of_nil in Hfmt].
  - (* %m/%d/%Y *)
    rewrite chars_join in Hs.
    rewrite strftime_mdY in Hs. cbn [year month day] in Hs.
    rewrite strip_two_fields_year in Hs by (done || tauto).
    rewrite map_two_seps, !slash_dash_short2, slash_dash_pad4 in Hs by lia.
    change (replace_char "/" "-" "/") with "-"%char in Hs.
    destruct Hs as [-> | [-> | ->]].
    + exists "%m/%d/%Y". split; [repeat constructor |].
      rewrite <- (join_chars (strftime _ _)), strftime_mdY.
      eapply strptime_tokens; [reflexivity | | done].
      apply (match_two_fields_year Tm Td); tauto.
    + exists "%m/%d/%Y". split; [repeat constructor |].
      eapply strptime_tokens; [reflexivity | | done].
      apply (match_two_fields_year Tm Td); tauto.
    + exists "%m-%d-%Y". split; [repeat constructor |].
      eapply strptime_tokens; [reflexivity | | done].
      apply (match_two_fields_year Tm Td); tauto.
  - (* %d/%m/%Y *)
    rewrite chars_join in Hs.
    rewrite strftime_dmY in Hs. cbn [year month day] in Hs.
    rewrite strip_two_fields_year in Hs by (done || tauto).
    rewrite map_two_seps, !slash_dash_short2, slash_dash_pad4 in Hs by lia.
    change (replace_char "/" "-" "/") with "-"%char in Hs.
    destruct Hs as [-> | [-> | ->]].
    + exists "%d/%m/%Y". split; [repeat constructor |].
      rewrite <- (join_chars (strftime _ _)), strftime_dmY.
      eapply strptime_tokens; [reflexivity | | done].
      apply (match_two_fields_year Td Tm); tauto.
    + exists "%d/%m/%Y". split; [repeat constructor |].
      eapply strptime_tokens; [reflexivity | | done].
      apply (match_two_fields_year Td Tm); tauto.
    + exists "%d-%m-%Y". split; [repeat constructor |].
      eapply strptime_tokens; [reflexivity | | done].
      apply (match_two_fields_year Td Tm); tauto.
  - (* %Y-%m-%d *)
    rewrite chars_join in Hs.
    rewrite strftime_Ymd in Hs. cbn [year month day] in Hs.
    rewrite strip_year_two_fields in Hs by done.
    rewrite map_app, map_cons, map_app, map_cons in Hs.
    rewrite !slash_dash_short2, slash_dash_pad4 in Hs by lia.
    change (replace_char "/" "-" "-") with "-"%char in Hs.
    exists "%Y-%m-%d". split; [repeat constructor |].
    destruct Hs as [-> | [-> | ->]].
    + rewrite <- (join_chars (strftime _ _)), strftime_Ymd.
      eapply strptime_tokens; [reflexivity | | done].
      apply match_year_two_fields; tauto.
    + eapply strptime_tokens; [reflexivity | | done].
      apply match_year_two_fields; tauto.
    + eapply strptime_tokens; [reflexivity | | done].
      apply match_year_two_fields; tauto.
  - (* %m-%d-%Y *)
    rewrite chars_join in Hs.
    rewrite strftime_mdY_dash in Hs. cbn [year month day] in Hs.
    rewrite strip_two_fields_year in Hs by (done || tauto).
    rewrite map_two_seps, !slash_dash_short2, slash_dash_pad4 in Hs by lia.
    change (replace_char "/" "-" "-") with "-"%char in Hs.
    exists "%m-%d-%Y". split; [repeat constructor |].
    destruct Hs as [-> | [-> | ->]].
    + rewrite <- (join_chars (strftime _ _)), strftime_mdY_dash.
      eapply strptime_tokens; [reflexivity | | done].
      apply (match_two_fields_year Tm Td); tauto.
    + eapply strptime_tokens; [reflexivity | | done].
      apply (match_two_fields_year Tm Td); tauto.
    + eapply strptime_tokens; [reflexivity | | done].
      apply (match_two_fields_year Tm Td); tauto.
  - (* %d %b %Y *)
    rewrite chars_join in Hs.
    rewrite strftime_dbY in Hs. cbn [year month day] in Hs.
    rewrite strip_day_month_year in Hs by done.
    rewrite map_two_seps, slash_dash_short2, slash_dash_abbr, slash_dash_pad4 in Hs by lia.
    change (replace_char "/" "-" " ") with " "%char in Hs.
    exists "%d %b %Y". split; [repeat constructor |].
    destruct Hs as [-> | [-> | ->]].
    + rewrite <- (join_chars (strftime _ _)), strftime_dbY.
      eapply strptime_tokens; [reflexivity | | done].
      apply match_day_month_year; tauto.
    + eapply strptime_tokens; [reflexivity | | done].
      apply match_day_month_year; tauto.
    + eapply strptime_tokens; [reflexivity | | done].
      apply match_day_month_year; tauto.
Qed.

Lemma placeholder_tokens_nonempty : placeholder_tokens <> [].
Proof. discriminate. Qed.
Lemma output_formats_nonempty : output_formats <> [].
Proof. discriminate. Qed.



(** Why the year must keep four significant digits: 5 January 999 rendered
    as [%Y-%m-%d] is ["0999-01-05"]; with the zeros dropped it is
    ["999-1-5"], which no format parses. *)
Lemma format_birthday_short_year :
  (exists g',
     format_birthday (mkdate 999 1 5) (build_noise_config 1)
                     (tape_of [9007199254740991; 9007199254740991; 2; 0;
                               9007199254740991]%N)
     = Ok ("999-1-5", g'))
  /\ Forall (fun fmt => strptime "999-1-5" fmt = None)
            (output_formats ++ ["%d-%m-%Y"]).
Proof.
  split; [eexists; vm_compute; reflexivity |].
  repeat constructor.
Qed.


End rendering.

(** ** More on the noise configuration *)

Section noise_levels.

Lemma clamp_nonpositive (x : Q) : (x <= 0)%Q -> clamp x = 0%Q.
Proof.
  intros Hx. unfold clamp, clamp_to, py_max, py_min.
  assert (Qle_bool x (95 # 100) = true) as ->.
  { apply Qle_bool_iff. eapply Qle_trans; [exact Hx | done]. }
  assert (Qle_bool x 0 = true) as -> by (by apply Qle_bool_iff).
  reflexivity.
Qed.

Lemma py_int_nonpositive (x : Q) : (x <= 0)%Q -> (py_int x <= 0)%Z.
Proof.
  destruct x as [n d]. unfold Qle, py_int. simpl. intros Hn.
  apply Z.quot_le_upper_bound; lia.
Qed.

Lemma clamp_monotone (x y : Q) : (x <= y)%Q -> (clamp x <= clamp y)%Q.
Proof.
  intros Hxy. rewrite !clamp_formula.
  apply Q.max_le_compat_l. apply Q.min_le_compat_r. exact Hxy.
Qed.

(** X1.  [clamp] is monotone and idempotent, and on [0, 0.95] it returns
    its argument. *)
Theorem clamp_properties (x y : Q) :
  ((x <= y)%Q -> (clamp x <= clamp y)%Q)
  /\ clamp (clamp x) = clamp x
  /\ ((0 <= x)%Q -> (x <= 95 # 100)%Q -> (clamp x == x)%Q).
Proof.
  split_and!.
  - apply clamp_monotone.
  - destruct (clamp_range x) as [Hlo Hhi].
    unfold clamp at 1, clamp_to, py_min, py_max.
    assert (Qle_bool (clamp x) (95 # 100) = true) as -> by (by apply Qle_bool_iff).
    destruct (Qle_bool (clamp x) 0) eqn:Hle; [| reflexivity].
    unfold clamp, clamp_to, py_max in *.
    destruct (Qle_bool (py_min x (95 # 100)) 0) eqn:Hin; [reflexivity | congruence].
  - intros Hlo Hhi. rewrite clamp_formula.
    rewrite Q.min_l by done. by rewrite Q.max_r.
Qed.

Lemma clamp_properties_witness :
  (clamp (clamp (3 # 2)) = clamp (3 # 2)) /\ (clamp (1 # 2) == 1 # 2)%Q.
Proof.
  split.
  - apply (clamp_properties (3 # 2) 0).
  - apply (clamp_properties (1 # 2) 0); done.
Defined.



Lemma py_int_monotone (a b : Q) : (a <= b)%Q ->
  (py_maxZ 1 (py_int a) <= py_maxZ 1 (py_int b))%Z.
Proof.
  intros Hab. rewrite !py_maxZ_max.
  destruct (Qlt_le_dec 0 a) as [Hpos | Hneg].
  - rewrite !py_int_floor.
    + pose proof (Qfloor_resp_le _ _ Hab). lia.
    + eapply Qle_trans; [apply Qlt_le_weak, Hpos | exact Hab].
    + by apply Qlt_le_weak.
  - pose proof (py_int_nonpositive a Hneg). lia.
Qed.





End noise_levels.

(** ** More on the field mutators *)

Section more_mutators.

Lemma bind_never_raises {A B} (c : M A) (k : A -> M B) :
  never_raises c -> (forall a, never_raises (k a)) -> never_raises (bind c k).
Proof.
  intros Hc Hk g. unfold bind.
  destruct (Hc g) as (a & g1 & ->). apply Hk.
Qed.

Lemma ret_never_raises {A} (a : A) : never_raises (ret a).
Proof. intros g. by exists a, g. Qed.

Lemma gate_never_raises (p : Q) : never_raises (gate p).
Proof. intros g. destruct (gate_spec p g) as [b ->]. by eexists _, _. Qed.

Lemma choice_never_raises {A} (l : list A) : l <> [] -> never_raises (rng.choice l).
Proof. intros Hl g. destruct (choice_spec l g Hl) as (x & -> & _). by eexists _, _. Qed.

Lemma randint_never_raises (a b : Z) : (a <= b)%Z -> never_raises (rng.randint a b).
Proof. intros Hab g. destruct (randint_spec a b g Hab) as (k & -> & _). by eexists _, _. Qed.

Lemma introduce_typo_never_raises (value : string) :
  never_raises (introduce_typo value).
Proof.
  intros g. unfold introduce_typo.
  destruct (decide (value = "")); [by eexists _, _ |].
  pose proof (len_nonempty value n) as Hpos.
  unfold bind at 1.
  destruct (randrange_spec (len value) g Hpos) as (idx & -> & Hidx).
  apply bind_never_raises; [by apply choice_never_raises |]. intros op.
  repeat case_decide.
  - apply ret_never_raises.
  - apply bind_never_raises; [by apply choice_never_raises |].
    intros c. apply ret_never_raises.
  - intros g1. unfold bind, lift.
    destruct (list_swap_spec (chars value) idx (min (idx + 1) (len value - 1)))
      as (l' & -> & _); [done | unfold len in *; lia |].
    by eexists _, _.
  - apply bind_never_raises; [by apply choice_never_raises |].
    intros c. apply ret_never_raises.
Qed.

Lemma sample2_distinct (value : string) (g : Random) :
  2 <= len value ->
  exists i j ci cj,
    rng.sample2 (len value) g = Ok ((i, j), advance (advance g))
    /\ i <> j
    /\ chars value !! i = Some ci /\ chars value !! j = Some cj.
Proof.
  intros Hlen.
  destruct (sample2_spec (len value) g Hlen) as (i & j & Hs & Hi & Hj & Hij).
  destruct (lookup_lt_is_Some_2 (chars value) i Hi) as [ci Hci].
  destruct (lookup_lt_is_Some_2 (chars value) j Hj) as [cj Hcj].
  by exists i, j, ci, cj.
Qed.



Lemma swap_two_characters_never_raises (value : string) :
  never_raises (swap_two_characters value).
Proof.
  intros g. unfold swap_two_characters. case_decide; [by eexists _, _ |].
  assert (2 <= len value) as Hlen by (destruct (decide (len value < 2)); [tauto | lia]).
  destruct (sample2_distinct value g Hlen) as (i & j & ci & cj & Hs & Hij & Hi & Hj).
  unfold bind at 1. rewrite Hs. rewrite decide_False by done.
  unfold bind, lift, list_swap. rewrite Hi, Hj. by eexists _, _.
Qed.

Lemma random_case_never_raises (value : string) : never_raises (random_case value).
Proof.
  unfold random_case. case_decide; [apply ret_never_raises |].
  apply bind_never_raises; [by apply choice_never_raises |].
  intros fn. apply ret_never_raises.
Qed.

(** X6.  [add_whitespace] only pads: a non-empty value comes back with at
    most two spaces added in front and at most two behind, after exactly two
    draws; the empty value comes back as it is, without a draw. *)
Theorem add_whitespace_pads (value : string) (g : Random) :
  (value = "" -> add_whitespace value g = Ok ("", g))
  /\ (value <> "" ->
      exists a b,
        a <= 2 /\ b <= 2
        /\ add_whitespace value g
           = Ok (repeat_char " " a +:+ value +:+ repeat_char " " b,
                 advance (advance g))).
Proof.
  unfold add_whitespace. split.
  - intros ->. reflexivity.
  - intros Hne. rewrite decide_False by done.
    unfold bind at 1.
    destruct (randint_spec 0 2 g) as (n1 & -> & Hn1); [lia |].
    unfold bind at 1.
    destruct (randint_spec 0 2 (advance g)) as (n2 & -> & Hn2); [lia |].
    exists (Z.to_nat n1), (Z.to_nat n2). split_and!; [lia | lia | reflexivity].
Qed.

Lemma add_whitespace_pads_witness :
  exists a b,
    a <= 2 /\ b <= 2
    /\ add_whitespace "Ann" (tape_of [2; 1]%N)
       = Ok (repeat_char " " a +:+ "Ann" +:+ repeat_char " " b,
             advance (advance (tape_of [2; 1]%N))).
Proof. apply (add_whitespace_pads "Ann" (tape_of [2; 1]%N)). discriminate. Defined.

Lemma add_whitespace_never_raises (value : string) :
  never_raises (add_whitespace value).
Proof.
  unfold add_whitespace. case_decide; [apply ret_never_raises |].
  apply bind_never_raises; [by apply randint_never_raises |]. intros n1.
  apply bind_never_raises; [by apply randint_never_raises |]. intros n2.
  apply ret_never_raises.
Qed.

Lemma add_suffix_never_raises (value : string) : never_raises (add_suffix value).
Proof.
  unfold add_suffix. case_decide; [apply ret_never_raises |].
  apply bind_never_raises; [by apply choice_never_raises |].
  intros s. apply ret_never_raises.
Qed.

Lemma stage_never_raises (p : Q) (mutator : string -> M string) (value : string) :
  (forall v, never_raises (mutator v)) -> never_raises (stage p mutator value).
Proof.
  intros Hm. unfold stage. apply bind_never_raises; [apply gate_never_raises |].
  intros [|]; [apply Hm | apply ret_never_raises].
Qed.

Lemma run_stages_never_raises stages (value : string) :
  Forall (fun '(_, mutator) => forall v : string, never_raises (mutator v)) stages ->
  never_raises (run_stages stages value).
Proof.
  intros Hall. revert value. induction Hall as [|[p m] stages Hm _ IH]; intros value.
  - apply ret_never_raises.
  - cbn [run_stages]. apply bind_never_raises; [by apply stage_never_raises |].
    apply IH.
Qed.

Lemma mutate_name_unfold (value : string) (config : NoiseConfig) (g : Random) :
  mutate_name value config g
  = match gate (missing_prob config) g with
    | Ok (true, g1) => Ok ("", g1)
    | Ok (false, g1) => run_stages (name_stages config) value g1
    | Raise e => Raise e
    end.
Proof.
  unfold mutate_name. unfold bind at 1.
  destruct (gate_spec (missing_prob config) g) as [[|] ->]; reflexivity.
Qed.

Lemma mutate_generic_unfold (value : string) (config : NoiseConfig) (g : Random) :
  mutate_generic value config g
  = match gate (missing_prob config) g with
    | Ok (true, g1) => Ok ("", g1)
    | Ok (false, g1) => run_stages (generic_stages config) value g1
    | Raise e => Raise e
    end.
Proof.
  unfold mutate_generic. unfold bind at 1.
  destruct (gate_spec (missing_prob config) g) as [[|] ->]; reflexivity.
Qed.

(** X7.  [mutate_name] and [mutate_generic] never raise: whatever the value,
    the configuration and the generator state, the guards of the mutators
    keep every draw and every index in range. *)
Theorem mutate_name_generic_never_raise (value : string) (config : NoiseConfig) :
  never_raises (mutate_name value config)
  /\ never_raises (mutate_generic value config).
Proof.
  split; intros g.
  - rewrite mutate_name_unfold.
    destruct (gate_spec (missing_prob config) g) as [[|] ->]; [by eexists _, _ |].
    apply run_stages_never_raises. unfold name_stages.
    repeat constructor;
      auto using swap_two_characters_never_raises, introduce_typo_never_raises,
        random_case_never_raises, add_whitespace_never_raises,
        add_suffix_never_raises.
  - rewrite mutate_generic_unfold.
    destruct (gate_spec (missing_prob config) g) as [[|] ->]; [by eexists _, _ |].
    apply run_stages_never_raises. unfold generic_stages.
    repeat constructor;
      auto using swap_two_characters_never_raises, introduce_typo_never_raises,
        random_case_never_raises, add_whitespace_never_raises.
Qed.

Lemma gate_closed (p : Q) (g : Random) :
  (p <= 0)%Q -> gate p g = Ok (false, advance g).
Proof.
  intros Hp. unfold gate, bind, ret. cbn [rng.random]. do 2 f_equal.
  apply not_true_iff_false. rewrite Qltb_lt. apply Qle_not_lt.
  eapply Qle_trans; [exact Hp |]. unfold Qle. cbn [Qnum Qden].
  rewrite Z.mul_0_l, Z.mul_1_r. apply N2Z.is_nonneg.
Qed.

Lemma run_stages_closed stages (value : string) (g : Random) :
  Forall (fun '(p, _) => (p <= 0)%Q) stages ->
  run_stages stages value g = Ok (value, Nat.iter (length stages) advance g).
Proof.
  intros Hall. revert g. induction Hall as [|[p m] stages Hp _ IH]; intros g.
  - reflexivity.
  - cbn [run_stages]. unfold bind, stage, bind. rewrite (gate_closed p g Hp).
    unfold ret. rewrite IH. f_equal. f_equal.
    cbn [length]. by rewrite Nat.iter_succ_r.
Qed.

Lemma mutate_name_closed (value : string) (config : NoiseConfig) (g : Random) :
  (missing_prob config <= 0)%Q -> (char_swap_prob config <= 0)%Q ->
  (typo_prob config <= 0)%Q -> (case_prob config <= 0)%Q ->
  (whitespace_prob config <= 0)%Q -> (suffix_prob config <= 0)%Q ->
  mutate_name value config g = Ok (value, Nat.iter 6 advance g).
Proof.
  intros Hm Hs Ht Hc Hw Hx.
  rewrite mutate_name_unfold, (gate_closed _ g Hm).
  rewrite run_stages_closed by (unfold name_stages; repeat constructor; done).
  reflexivity.
Qed.

Lemma mutate_generic_closed (value : string) (config : NoiseConfig) (g : Random) :
  (missing_prob config <= 0)%Q -> (char_swap_prob config <= 0)%Q ->
  (typo_prob config <= 0)%Q -> (case_prob config <= 0)%Q ->
  (whitespace_prob config <= 0)%Q ->
  mutate_generic value config g = Ok (value, Nat.iter 5 advance g).
Proof.
  intros Hm Hs Ht Hc Hw.
  rewrite mutate_generic_unfold, (gate_closed _ g Hm).
  rewrite run_stages_closed by (unfold generic_stages; repeat constructor; done).
  reflexivity.
Qed.

(** X8.  With the probabilities of its stages at zero or below,
    [mutate_name] returns the value as it is after exactly six draws, and
    [mutate_generic] does so after exactly five. *)
Theorem mutate_name_generic_closed_gates (value : string) (config : NoiseConfig)
    (g : Random) :
  (missing_prob config <= 0)%Q -> (char_swap_prob config <= 0)%Q ->
  (typo_prob config <= 0)%Q -> (case_prob config <= 0)%Q ->
  (whitespace_prob config <= 0)%Q ->
  ((suffix_prob config <= 0)%Q ->
   mutate_name value config g = Ok (value, Nat.iter 6 advance g))
  /\ mutate_generic value config g = Ok (value, Nat.iter 5 advance g).
Proof.
  intros Hm Hs Ht Hc Hw. split; [intros Hx |].
  - by apply mutate_name_closed.
  - by apply mutate_generic_closed.
Qed.

Lemma mutate_name_generic_closed_gates_witness :
  mutate_generic "Ann" (build_noise_config 0) (tape_of [])
  = Ok ("Ann", Nat.iter 5 advance (tape_of [])).
Proof.
  apply (mutate_name_generic_closed_gates "Ann" (build_noise_config 0) (tape_of []));
    done.
Defined.

End more_mutators.

(** ** Reading back what [format_birthday] writes *)

Section reading_back.

Ltac finish_match :=
  try match goal with
      | |- context [match ?K ?a ?r with Some _ => _ | None => _ end] =>
          destruct (K a r)
      end; reflexivity.

Ltac reject_all HK Hc :=
  repeat match goal with
         | |- context [?K ?a (?x :: ?r)] =>
             rewrite (HK a x r) by (reflexivity || exact Hc)
         end.

Lemma strptime_no_match (value fmt : string) ts :
  tokens_go false (chars fmt) = Some ts ->
  regex_match ts (mkfields 1900 1 1) (chars value) = None ->
  strptime value fmt = None.
Proof. intros Hts Hmatch. unfold strptime. by rewrite Hts, Hmatch. Qed.

(** A month or day field in front of three digits: one or two of them are
    taken and the continuation faces a digit. *)
Lemma field_before_digits t K acc a b c rest :
  t = Tm \/ t = Td -> rejects_digits K ->
  is_digit a = true -> is_digit b = true -> is_digit c = true ->
  regex_step t K acc (a :: b :: c :: rest) = None.
Proof.
  intros Ht HK Ha Hb Hc. unfold rejects_digits in HK.
  apply digit_cases in Ha. apply digit_cases in Hb.
  repeat (apply elem_of_cons in Ha as [-> | Ha]);
    [| | | | | | | | | | by apply elem_of_nil in Ha];
    (repeat (apply elem_of_cons in Hb as [-> | Hb]);
      [| | | | | | | | | | by apply elem_of_nil in Hb]);
    destruct Ht as [-> | ->]; vm_compute; reject_all HK Hc; reflexivity.
Qed.

(** A day above 12 is no month. *)
Lemma month_field_rejects_day K acc d x rest :
  rejects_digits K -> (13 <= d <= 31)%Z ->
  regex_step Tm K acc (pad2 d ++ x :: rest) = None.
Proof.
  intros HK Hd. unfold rejects_digits in HK.
  assert (exists n, d = Z.of_nat n /\ n < 32) as (n & -> & Hn) by (exists (Z.to_nat d); lia).
  do 32 (destruct n as [|n];
         [try lia; vm_compute; reject_all HK (@eq_refl bool true); reflexivity |]).
  lia.
Qed.

Lemma year_field_rejects_short K acc a b x rest :
  is_digit x = false -> regex_step TY K acc (a :: b :: x :: rest) = None.
Proof.
  intros Hx. unfold regex_step, alts_Y. cbn [first_success match_alt].
  destruct (is_digit a); [| reflexivity].
  destruct (is_digit b); [| reflexivity].
  by rewrite Hx.
Qed.

Lemma pad2_cons n : pad2 n = [digit (n / 10 mod 10); digit (n mod 10)]%Z.
Proof. reflexivity. Qed.

Lemma pad2_digits n :
  (0 <= n)%Z ->
  is_digit (digit (n / 10 mod 10)) = true /\ is_digit (digit (n mod 10)) = true.
Proof. intros Hn. split; apply digit_char; Z.div_mod_to_equations; lia. Qed.

Lemma pad4_digits n :
  (0 <= n)%Z ->
  is_digit (digit (n / 1000 mod 10)) = true
  /\ is_digit (digit (n / 100 mod 10)) = true
  /\ is_digit (digit (n / 10 mod 10)) = true.
Proof. intros Hn. split_and!; apply digit_char; Z.div_mod_to_equations; lia. Qed.

(** The slash formats against a value that starts with a four-digit year. *)
Lemma slash_format_rejects_year t1 t2 acc y rest :
  t1 = Tm \/ t1 = Td -> (0 <= y)%Z ->
  regex_match [t1; Tlit "/"; t2; Tlit "/"; TY] acc (pad4 y ++ rest) = None.
Proof.
  intros Ht Hy. cbn [regex_match]. unfold pad4. cbn [app].
  destruct (pad4_digits y Hy) as (Ha & Hb & Hc).
  apply field_before_digits; [done | | done..].
  apply lit_rejects_digits. by left.
Qed.

(** The ISO format against a value whose third character is no digit. *)
Lemma iso_format_rejects_field acc n x rest :
  is_digit x = false ->
  regex_match [TY; Tlit "-"; Tm; Tlit "-"; Td] acc (pad2 n ++ x :: rest) = None.
Proof.
  intros Hx. cbn [regex_match]. rewrite pad2_cons. cbn [app].
  by apply year_field_rejects_short.
Qed.

(** A slash format against a value whose first separator is no slash. *)
Lemma slash_format_rejects_separator t1 t2 acc n x rest :
  (t1 = Tm /\ (1 <= n <= 12)%Z) \/ (t1 = Td /\ (1 <= n <= 31)%Z) ->
  x = "-"%char \/ x = " "%char ->
  regex_match [t1; Tlit "/"; t2; Tlit "/"; TY] acc (pad2 n ++ x :: rest) = None.
Proof.
  intros Ht Hx. cbn [regex_match].
  destruct Ht as [[-> Hn] | [-> Hn]].
  - rewrite (field_m _ _ n); [| apply lit_rejects_digits; by left | done | by left | tauto].
    by destruct Hx as [-> | ->].
  - rewrite (field_d _ _ n); [| apply lit_rejects_digits; by left | done | by left | tauto].
    by destruct Hx as [-> | ->].
Qed.

Lemma valid_date_fields y m d :
  valid_date (mkdate y m d) = true ->
  (1 <= y <= 9999)%Z /\ (1 <= m <= 12)%Z /\ (1 <= d <= 31)%Z.
Proof.
  intros Hv. apply valid_date_iff in Hv. cbn [year month day] in Hv.
  pose proof (days_in_month_bounds y m). lia.
Qed.

Lemma parse_birthday_steps (value : string) :
  parse_birthday value
  = match strptime value "%m/%d/%Y" with
    | Some d => Some d
    | None => match strptime value "%d/%m/%Y" with
              | Some d => Some d
              | None => match strptime value "%Y-%m-%d" with
                        | Some d => Some d
                        | None => None
                        end
              end
    end.
Proof. reflexivity. Qed.

(** X9.  A date with a four-digit year written as [%Y-%m-%d] or as
    [%m/%d/%Y] is read back by [parse_birthday] as the same date. *)
Theorem parse_birthday_reads_iso_and_month_first (dt : datetime) :
  valid_date dt = true -> (1000 <= year dt)%Z ->
  parse_birthday (strftime dt "%Y-%m-%d") = Some dt
  /\ parse_birthday (strftime dt "%m/%d/%Y") = Some dt.
Proof.
  intros Hvalid _. destruct dt as [y m d].
  destruct (valid_date_fields y m d Hvalid) as (Hy & Hm & Hd).
  rewrite !parse_birthday_steps. split.
  - rewrite (strptime_no_match _ "%m/%d/%Y" [Tm; Tlit "/"; Td; Tlit "/"; TY]);
      [| reflexivity | rewrite strftime_Ymd; apply slash_format_rejects_year; [by left | cbn [year]; lia]].
    rewrite (strptime_no_match _ "%d/%m/%Y" [Td; Tlit "/"; Tm; Tlit "/"; TY]);
      [| reflexivity | rewrite strftime_Ymd; apply slash_format_rejects_year; [by right | cbn [year]; lia]].
    rewrite <- (join_chars (strftime _ _)), strftime_Ymd. cbn [year month day].
    erewrite strptime_tokens; [reflexivity | reflexivity | | done].
    apply match_year_two_fields; (lia || by left).
  - rewrite <- (join_chars (strftime _ _)), strftime_mdY. cbn [year month day].
    erewrite strptime_tokens; [reflexivity | reflexivity | | done].
    apply (match_two_fields_year Tm Td); (lia || tauto).
Qed.

Lemma parse_birthday_reads_iso_and_month_first_witness :
  parse_birthday (strftime (mkdate 1990 12 25) "%Y-%m-%d") = Some (mkdate 1990 12 25).
Proof.
  apply (parse_birthday_reads_iso_and_month_first (mkdate 1990 12 25));
    [reflexivity | done].
Defined.

(** X10.  A date with a four-digit year written as [%d/%m/%Y] is read back
    as the same date when its day is above 12; with a day of 12 or less
    [parse_birthday] takes the day for the month and the month for the
    day. *)
Theorem parse_birthday_reads_day_first (dt : datetime) :
  valid_date dt = true -> (1000 <= year dt)%Z ->
  ((12 < day dt)%Z -> parse_birthday (strftime dt "%d/%m/%Y") = Some dt)
  /\ ((day dt <= 12)%Z ->
      parse_birthday (strftime dt "%d/%m/%Y")
      = Some (mkdate (year dt) (day dt) (month dt))).
Proof.
  intros Hvalid _. destruct dt as [y m d].
  destruct (valid_date_fields y m d Hvalid) as (Hy & Hm & Hd).
  cbn [year month day]. rewrite !parse_birthday_steps. split; intros Hday.
  - rewrite (strptime_no_match _ "%m/%d/%Y" [Tm; Tlit "/"; Td; Tlit "/"; TY]);
      [| reflexivity | ].
    + rewrite <- (join_chars (strftime _ _)), strftime_dmY. cbn [year month day].
      erewrite strptime_tokens; [reflexivity | reflexivity | | done].
      apply (match_two_fields_year Td Tm); (lia || tauto).
    + rewrite strftime_dmY. cbn [year month day regex_match].
      apply month_field_rejects_day; [apply lit_rejects_digits; by left | lia].
  - rewrite <- (join_chars (strftime _ _)), strftime_dmY. cbn [year month day].
    erewrite strptime_tokens; [reflexivity | reflexivity | |].
    + apply (match_two_fields_year Tm Td "/" _ d m);
        [left; split_and!; (done || lia) | by left | by left | by left | lia].
    + apply valid_date_iff. cbn [year month day].
      pose proof (days_in_month_bounds y d). lia.
Qed.

Lemma parse_birthday_reads_day_first_witness :
  parse_birthday (strftime (mkdate 1990 12 5) "%d/%m/%Y") = Some (mkdate 1990 5 12).
Proof.
  apply (parse_birthday_reads_day_first (mkdate 1990 12 5));
    [reflexivity | done | done].
Defined.

(** X11.  A date written as [%m-%d-%Y] or as [%d %b %Y] is not read back:
    [parse_birthday] returns the sentinel, so on a second pass such a value
    only meets the missing-value gate. *)
Theorem parse_birthday_rejects_dash_and_month_name (dt : datetime) :
  valid_date dt = true ->
  parse_birthday (strftime dt "%m-%d-%Y") = None
  /\ parse_birthday (strftime dt "%d %b %Y") = None.
Proof.
  intros Hvalid. destruct dt as [y m d].
  destruct (valid_date_fields y m d Hvalid) as (Hy & Hm & Hd).
  rewrite !parse_birthday_steps. split.
  - rewrite (strptime_no_match _ "%m/%d/%Y" [Tm; Tlit "/"; Td; Tlit "/"; TY]);
      [| reflexivity
       | rewrite strftime_mdY_dash; apply slash_format_rejects_separator; tauto].
    rewrite (strptime_no_match _ "%d/%m/%Y" [Td; Tlit "/"; Tm; Tlit "/"; TY]);
      [| reflexivity
       | rewrite strftime_mdY_dash; apply slash_format_rejects_separator;
         [right; cbn [month]; split; [done | lia] | tauto]].
    rewrite (strptime_no_match _ "%Y-%m-%d" [TY; Tlit "-"; Tm; Tlit "-"; Td]);
      [done | reflexivity |].
    rewrite strftime_mdY_dash. by apply iso_format_rejects_field.
  - rewrite (strptime_no_match _ "%m/%d/%Y" [Tm; Tlit "/"; Td; Tlit "/"; TY]);
      [| reflexivity | ].
    2: { rewrite strftime_dbY. cbn [year month day regex_match].
         destruct (decide (d <= 12)%Z).
         - rewrite (field_m _ _ d); [done | apply lit_rejects_digits; by left
                                     | lia | by left | tauto].
         - apply month_field_rejects_day; [apply lit_rejects_digits; by left | lia]. }
    rewrite (strptime_no_match _ "%d/%m/%Y" [Td; Tlit "/"; Tm; Tlit "/"; TY]);
      [| reflexivity
       | rewrite strftime_dbY; apply slash_format_rejects_separator; tauto].
    rewrite (strptime_no_match _ "%Y-%m-%d" [TY; Tlit "-"; Tm; Tlit "-"; Td]);
      [done | reflexivity |].
    rewrite strftime_dbY. by apply iso_format_rejects_field.
Qed.

Lemma parse_birthday_rejects_dash_and_month_name_witness :
  parse_birthday (strftime (mkdate 1990 12 25) "%d %b %Y") = None.
Proof.
  apply (parse_birthday_rejects_dash_and_month_name (mkdate 1990 12 25)). reflexivity.
Defined.

Lemma format_birthday_closed (dt : datetime) (config : NoiseConfig) (g : Random) :
  (date_text_token_prob config <= 0)%Q ->
  (date_shift_prob config <= 0)%Q ->
  (date_format_prob config <= 0)%Q ->
  exists fmt,
    fmt ∈ output_formats
    /\ format_birthday dt config g = Ok (strftime dt fmt, Nat.iter 4 advance g).
Proof.
  intros Htoken Hshift Hformat. unfold format_birthday.
  unfold bind at 1. rewrite (gate_closed _ g Htoken).
  unfold bind at 1. rewrite (gate_closed _ _ Hshift).
  unfold bind at 1, ret at 1.
  unfold bind at 1.
  destruct (choice_spec output_formats (advance (advance g)) output_formats_nonempty)
    as (fmt & -> & Hfmt).
  unfold bind at 1. rewrite (gate_closed _ _ Hformat).
  exists fmt. split; [done | reflexivity].
Qed.

(** X12.  With the three date gates at zero or below, [format_birthday]
    returns the date rendered in one of the five output formats, chosen by
    the third draw, after exactly four draws: no placeholder, no shift, no
    zero dropped, and no exception.  A date value is thus re-rendered even
    when every effect is switched off. *)
Theorem format_birthday_closed_gates (dt : datetime) (config : NoiseConfig)
    (g : Random) :
  (date_text_token_prob config <= 0)%Q ->
  (date_shift_prob config <= 0)%Q ->
  (date_format_prob config <= 0)%Q ->
  exists fmt,
    fmt ∈ output_formats
    /\ format_birthday dt config g = Ok (strftime dt fmt, Nat.iter 4 advance g).
Proof. apply format_birthday_closed. Qed.

Lemma format_birthday_closed_gates_witness :
  exists fmt,
    fmt ∈ output_formats
    /\ format_birthday (mkdate 1990 1 2) (build_noise_config 0) (tape_of [0; 0; 2]%N)
       = Ok (strftime (mkdate 1990 1 2) fmt, Nat.iter 4 advance (tape_of [0; 0; 2]%N)).
Proof.
  apply (format_birthday_closed_gates (mkdate 1990 1 2) (build_noise_config 0)); done.
Defined.

End reading_back.

(** ** More on the row mutation engine *)

Section more_rows.

Implicit Types row mutated out : gmap string string.

Lemma mutate_column_shape row config mutated col g out g' :
  mutate_column row config mutated col g = Ok (out, g') ->
  out = mutated \/ exists v, out = <[col:=v]> mutated.
Proof.
  unfold mutate_column, bind, ret, gate. intros Hrun.
  repeat match type of Hrun with
         | context [if ?b then _ else _] => destruct b
         | context [match parse_birthday ?v with _ => _ end] =>
             destruct (parse_birthday v)
         | context [match ?f ?v ?c ?s with Ok _ => _ | Raise _ => _ end] =>
             destruct (f v c s) as [[? ?]|]
         | context [match rng.random ?s with Ok _ => _ | Raise _ => _ end] =>
             cbn [rng.random] in Hrun
         end; simplify_eq; eauto.
Qed.

Lemma mutate_columns_keys row config cols mutated g out g' (k : string) :
  mutate_columns row config cols mutated g = Ok (out, g') ->
  (is_Some (mutated !! k) -> is_Some (out !! k))
  /\ (is_Some (out !! k) -> is_Some (mutated !! k) \/ k ∈ cols).
Proof.
  revert mutated g. induction cols as [|col rest IH]; intros mutated g Hrun.
  - cbn [mutate_columns] in Hrun. unfold ret in Hrun. simplify_eq.
    split; [done | by left].
  - cbn [mutate_columns] in Hrun. unfold bind in Hrun.
    destruct (mutate_column row config mutated col g) as [[m1 g1]|] eqn:Hcol;
      [| done].
    destruct (IH _ _ Hrun) as [IH1 IH2].
    destruct (mutate_column_shape _ _ _ _ _ _ _ Hcol) as [-> | [v ->]].
    + split; [done |]. intros Hk. destruct (IH2 Hk); [by left | right; by right].
    + split.
      * intros Hk. apply IH1. rewrite lookup_insert. case_decide; [by eexists | done].
      * intros Hk. destruct (IH2 Hk) as [Hin | Hin]; [| right; by right].
        rewrite lookup_insert in Hin. case_decide; [subst; right; left | by left].
Qed.

Lemma swap_names_keys config mutated g out g' (k : string) :
  swap_names config mutated g = Ok (out, g') ->
  is_Some (out !! k) <-> is_Some (mutated !! k).
Proof.
  unfold swap_names, bind. destruct (gate_spec (swap_name_prob config) g) as [b ->].
  unfold ret. intros Hrun.
  repeat case_match; simplify_eq; try done.
  rewrite !lookup_insert. repeat case_decide; subst; split; intros ?; eauto.
Qed.

(** X13.  Row mutation never drops a column: every key of the input record
    is a key of the returned record, and a key of the returned record is a
    key of the input or one of the columns before the last two. *)
Theorem mutate_encoded_row_keys row (fieldnames : list string)
    (config : NoiseConfig) (g g' : Random) out (k : string) :
  mutate_encoded_row row fieldnames config g = Ok (out, g') ->
  (is_Some (row !! k) -> is_Some (out !! k))
  /\ (is_Some (out !! k) ->
      is_Some (row !! k) \/ k ∈ mutate_fields fieldnames).
Proof.
  unfold mutate_encoded_row, bind. intros Hrun.
  destruct (mutate_columns _ _ _ _ _) as [[m1 g1]|] eqn:Hcols; [| done].
  destruct (mutate_columns_keys _ _ _ _ _ _ _ k Hcols) as [H1 H2].
  pose proof (swap_names_keys _ _ _ _ _ k Hrun) as Hswap.
  split; intros Hk; [apply Hswap, H1, Hk | apply H2, Hswap, Hk].
Qed.

Lemma mutate_encoded_row_keys_witness :
  is_Some (({[ "GivenName" := ""; "enc" := "E1" ]} : gmap string string) !! "enc").
Proof.
  apply (mutate_encoded_row_keys {[ "GivenName" := "Ann"; "enc" := "E1" ]}
           ["GivenName"; "enc"; "uid"] (build_noise_config 1) (tape_of [0%N])
           (advance (advance (tape_of [0%N])))
           {[ "GivenName" := ""; "enc" := "E1" ]} "enc");
    [vm_compute; reflexivity | by eexists].
Defined.

Lemma mutate_fields_trailing (front : list string) (enc uid : string) :
  mutate_fields (front ++ [enc; uid]) = front.
Proof.
  unfold mutate_fields. rewrite length_app. cbn [length].
  rewrite decide_True by lia.
  replace (length front + 2 - 2) with (length front) by lia.
  by rewrite take_app_length.
Qed.

(** X14.  For a schema whose last two names are neither [GivenName] nor
    [Surname] and do not occur among the earlier names, the record returned
    by row mutation holds the input's values in the last two columns. *)
Theorem mutate_encoded_row_keeps_trailing row (front : list string)
    (enc uid : string) (config : NoiseConfig) (g g' : Random) out :
  enc ∉ front -> uid ∉ front ->
  ~ name_column enc -> ~ name_column uid ->
  mutate_encoded_row row (front ++ [enc; uid]) config g = Ok (out, g') ->
  out !! enc = row !! enc /\ out !! uid = row !! uid.
Proof.
  unfold name_column. intros He Hu Hne Hnu Hrun.
  unfold mutate_encoded_row, bind in Hrun. rewrite mutate_fields_trailing in Hrun.
  destruct (mutate_columns _ _ _ _ _) as [[m1 g1]|] eqn:Hcols; [| done].
  split.
  - rewrite (swap_names_frame _ _ _ _ _ _ Hrun) by tauto.
    by apply (mutate_columns_frame _ _ _ _ _ _ _ _ Hcols).
  - rewrite (swap_names_frame _ _ _ _ _ _ Hrun) by tauto.
    by apply (mutate_columns_frame _ _ _ _ _ _ _ _ Hcols).
Qed.

Lemma mutate_encoded_row_keeps_trailing_witness :
  let row : gmap string string := {[ "GivenName" := "Ann"; "enc" := "E1" ]} in
  let out : gmap string string := {[ "GivenName" := ""; "enc" := "E1" ]} in
  out !! "enc" = row !! "enc" /\ out !! "uid" = row !! "uid".
Proof.
  intros row out.
  apply (mutate_encoded_row_keeps_trailing row ["GivenName"] "enc" "uid"
           (build_noise_config 1) (tape_of [0%N])
           (advance (advance (tape_of [0%N]))) out);
    [ intros H%list_elem_of_singleton; discriminate H
    | intros H%list_elem_of_singleton; discriminate H
    | by intros [? | ?] | by intros [? | ?]
    | vm_compute; reflexivity ].
Defined.

Lemma build_noise_config_closed (level : Q) :
  (level <= 0)%Q -> all_gates_closed (build_noise_config level).
Proof.
  intros Hlevel.
  assert (forall c : Q, (0 <= c)%Q -> (clamp (c * level) <= 0)%Q) as Hzero.
  { intros c Hc. rewrite clamp_nonpositive; [done |].
    rewrite Qmult_comm. rewrite <- (Qmult_0_l c). by apply Qmult_le_compat_r. }
  unfold all_gates_closed, documented_coefficients, build_noise_config.
  repeat apply Forall_cons_2; try apply Forall_nil_2;
    cbn [missing_prob typo_prob case_prob swap_name_prob char_swap_prob
         whitespace_prob suffix_prob uid_noise_prob date_shift_prob
         date_format_prob date_text_token_prob];
    by apply Hzero.
Qed.

Lemma all_gates_closed_fields config :
  all_gates_closed config ->
  (missing_prob config <= 0 /\ typo_prob config <= 0 /\ case_prob config <= 0
   /\ swap_name_prob config <= 0 /\ char_swap_prob config <= 0
   /\ whitespace_prob config <= 0 /\ suffix_prob config <= 0
   /\ date_shift_prob config <= 0 /\ date_format_prob config <= 0
   /\ date_text_token_prob config <= 0)%Q.
Proof.
  unfold all_gates_closed, documented_coefficients. intros H.
  repeat (apply Forall_cons in H as [? H]). split_and!; done.
Qed.

Lemma mutate_column_closed row config mutated col g :
  all_gates_closed config ->
  exists out g',
    mutate_column row config mutated col g = Ok (out, g')
    /\ (forall k, k <> col -> out !! k = mutated !! k)
    /\ (~ date_column col -> out !! col = Some (default "" (row !! col))).
Proof.
  intros Hclosed.
  destruct (all_gates_closed_fields config Hclosed)
    as (Hm & Ht & Hc & Hsn & Hcs & Hw & Hs & Hds & Hdf & Hdt).
  unfold mutate_column, date_column, name_column.
  destruct (decide (col = "GivenName" \/ col = "Surname")) as [Hname | Hname].
  { unfold bind.
    rewrite mutate_name_closed by done.
    eexists _, _. split; [reflexivity |]. split.
    - intros k Hk. by rewrite lookup_insert_ne.
    - intros _. by rewrite lookup_insert_eq. }
  destruct (_ || _) eqn:Hdate.
  { destruct (parse_birthday _) as [dt|].
    - unfold bind.
      destruct (format_birthday_closed dt config g) as (fmt & _ & ->);
        [done..|].
      eexists _, _. split; [reflexivity |]. split.
      + intros k Hk. by rewrite lookup_insert_ne.
      + intros Hnot. destruct Hnot. done.
    - unfold bind. rewrite (gate_closed _ g Hm). eexists _, _.
      split; [reflexivity |]. split; [done |].
      intros Hnot. destruct Hnot. done. }
  unfold bind.
  rewrite mutate_generic_closed by done.
  eexists _, _. split; [reflexivity |]. split.
  - intros k Hk. by rewrite lookup_insert_ne.
  - intros _. by rewrite lookup_insert_eq.
Qed.

Lemma mutate_columns_closed row config cols mutated g :
  all_gates_closed config ->
  exists out g',
    mutate_columns row config cols mutated g = Ok (out, g')
    /\ (forall k, ~ date_column k ->
          out !! k = if decide (k ∈ cols) then Some (default "" (row !! k))
                     else mutated !! k).
Proof.
  intros Hclosed. revert mutated g.
  induction cols as [|col rest IH]; intros mutated g.
  - exists mutated, g. split; [done |]. intros k _.
    rewrite decide_False; [done | apply not_elem_of_nil].
  - destruct (mutate_column_closed row config mutated col g Hclosed)
      as (m1 & g1 & Hcol & Hother & Hself).
    destruct (IH m1 g1) as (out & g' & Hrest & Hout).
    exists out, g'. cbn [mutate_columns]. unfold bind. rewrite Hcol.
    split; [done |]. intros k Hk. rewrite (Hout k Hk).
    destruct (decide (k ∈ rest)) as [Hin | Hnotin].
    + rewrite decide_True; [done | by right].
    + destruct (decide (k = col)) as [-> | Hne].
      * rewrite decide_True by left. by apply Hself.
      * rewrite decide_False by (by intros [?|?]%elem_of_cons).
        by apply Hother.
Qed.



End more_rows.

(** ** More on the record swap engine *)

Section more_swaps.

Implicit Types rows : list (gmap string string).
Implicit Types indices ks : list nat.

Lemma swap_encodings_shape enc_col (i j : nat) rows rows' :
  swap_encodings enc_col i j rows = Ok rows' ->
  ((fun r : gmap string string => r !! enc_col) <$> rows')
    ≡ₚ ((fun r : gmap string string => r !! enc_col) <$> rows)
  /\ (forall v, v <> i -> v <> j -> rows' !! v = rows !! v).
Proof.
  unfold swap_encodings. intros Hrun.
  destruct (rows !! j) as [rj|] eqn:Hj; [| done].
  destruct (rows !! i) as [ri|] eqn:Hi; [| done].
  destruct (rj !! enc_col) as [ej|] eqn:Hej; [| done].
  destruct (ri !! enc_col) as [ei|] eqn:Hei; [| done].
  destruct (<[i:=<[enc_col:=ej]> ri]> rows !! j) as [rj1|] eqn:Hj1; [| done].
  simplify_eq. split.
  - rewrite !list_fmap_insert, !lookup_insert_eq.
    apply swap_perm; rewrite list_lookup_fmap.
    + rewrite Hi. cbn. by rewrite Hei.
    + rewrite Hj. cbn. by rewrite Hej.
  - intros v Hvi Hvj. by rewrite !list_lookup_insert_ne.
Qed.

Lemma swap_loop_encodings enc_col (p : Q) indices ks rows g :
  ((fun r : gmap string string => r !! enc_col)
     <$> rows_after (swap_loop enc_col p indices ks rows g))
    ≡ₚ ((fun r : gmap string string => r !! enc_col) <$> rows).
Proof.
  revert rows g. induction ks as [|k ks IH]; intros rows g; [done |].
  cbn [swap_loop rng.random].
  destruct (Qle_bool p _); [apply IH |].
  destruct (pair_at indices k) as [[i j]|]; [| done].
  destruct (swap_encodings enc_col i j rows) as [rows'|] eqn:Hswap; [| done].
  rewrite IH. by apply (swap_encodings_shape _ _ _ _ _ Hswap).
Qed.

Lemma apply_encoding_swaps_encodings rows (enc_col : string) (p : Q) (g : Random) :
  ((fun r : gmap string string => r !! enc_col)
     <$> rows_after (apply_encoding_swaps rows enc_col p g))
    ≡ₚ ((fun r : gmap string string => r !! enc_col) <$> rows).
Proof.
  unfold apply_encoding_swaps. destruct rows as [|first rest]; [done |].
  destruct (_ || _); [done |].
  destruct (shuffle _ g) as [[indices g']|]; [| done].
  apply swap_loop_encodings.
Qed.

Lemma apply_encoding_swaps_same_outside rows (enc_col : string) (p : Q) (g : Random) :
  Forall2 (same_outside enc_col) rows
          (rows_after (apply_encoding_swaps rows enc_col p g)).
Proof.
  unfold apply_encoding_swaps. destruct rows as [|first rest].
  { apply Forall2_same_outside_refl. }
  destruct (_ || _); [apply Forall2_same_outside_refl |].
  destruct (shuffle _ g) as [[indices g']|]; [| apply Forall2_same_outside_refl].
  apply swap_loop_frame.
Qed.

(** X16.  [apply_encoding_swaps] neither invents nor loses an encoding: the
    encoding values of the rows after the call are those before the call in
    another order, also when an exception escapes. *)
Theorem apply_encoding_swaps_permutes rows (enc_col : string) (p : Q) (g : Random) :
  ((fun r : gmap string string => r !! enc_col)
     <$> rows_after (apply_encoding_swaps rows enc_col p g))
    ≡ₚ ((fun r : gmap string string => r !! enc_col) <$> rows).
Proof. apply apply_encoding_swaps_encodings. Qed.

Lemma swap_loop_untouched enc_col (p : Q) indices ks rows g (v : nat) :
  v ∉ flat_map (pair_list indices) ks ->
  rows_after (swap_loop enc_col p indices ks rows g) !! v = rows !! v.
Proof.
  revert rows g. induction ks as [|k ks IH]; intros rows g Hv; [done |].
  cbn [flat_map] in Hv. apply not_elem_of_app in Hv as [Hk Hv].
  cbn [swap_loop rng.random].
  destruct (Qle_bool p _); [by apply IH |].
  unfold pair_list in Hk.
  destruct (pair_at indices k) as [[i j]|]; [| done].
  destruct (swap_encodings enc_col i j rows) as [rows'|] eqn:Hswap; [| done].
  rewrite IH by done.
  apply (swap_encodings_shape _ _ _ _ _ Hswap);
    intros ->; apply Hk; [left | right; left].
Qed.

Lemma NoDup_not_in_take {A} (l : list A) (k : nat) (x : A) :
  NoDup l -> l !! k = Some x -> x ∉ take k l.
Proof.
  intros Hnd Hk Hin. apply list_elem_of_lookup in Hin as [q Hq].
  pose proof (lookup_lt_Some _ _ _ Hq) as Hlt. rewrite length_take in Hlt.
  rewrite lookup_take_lt in Hq by lia.
  pose proof (NoDup_lookup _ _ _ _ Hnd Hq Hk). lia.
Qed.



Lemma shuffle_from_draws {A} (i : nat) (x : list A) (g : Random) :
  i < length x \/ i = 0 ->
  exists x', shuffle_from i x g = Ok (x', Nat.iter i advance g) /\ x' ≡ₚ x.
Proof.
  revert x g. induction i as [|i IH]; intros x g Hi.
  - by exists x.
  - destruct Hi as [Hi | ?]; [| done].
    cbn [shuffle_from]. unfold bind at 1.
    destruct (randbelow_spec (S i + 1) g) as (j & -> & Hj); [lia |].
    unfold bind at 1, lift.
    destruct (list_swap_spec x (S i) j) as (x1 & -> & Hperm & Hlen); [lia | lia |].
    destruct (IH x1 (advance g)) as (x' & -> & Hperm'); [lia |].
    exists x'. split; [| by rewrite Hperm'].
    by rewrite Nat.iter_succ_r.
Qed.

Lemma swap_loop_returns enc_col (p : Q) indices ks rows g :
  Forall (fun k => is_Some (pair_at indices k)) ks ->
  NoDup (flat_map (pair_list indices) ks) ->
  Forall (fun v => v < length rows) (flat_map (pair_list indices) ks) ->
  Forall (fun r => is_Some (r !! enc_col)) rows ->
  let out := swap_loop enc_col p indices ks rows g in
  escaped out = None /\ rng_after out = Nat.iter (length ks) advance g.
Proof.
  revert rows g. induction ks as [|k ks IH]; intros rows g Hsome Hnd Hlt Hall; [done |].
  apply Forall_cons in Hsome as [[[i j] Hpair] Hsome].
  assert (pair_list indices k = [i; j]) as Hpl
    by (unfold pair_list; by rewrite Hpair).
  cbn [flat_map] in *. rewrite Hpl in *. cbn [app] in *.
  apply NoDup_cons in Hnd as [Hi Hnd]. apply NoDup_cons in Hnd as [Hj Hnd].
  apply Forall_cons in Hlt as [Hilt Hlt]. apply Forall_cons in Hlt as [Hjlt Hlt].
  assert (i <> j) as Hij by (intros ->; apply Hi; left).
  cbn [swap_loop rng.random length]. rewrite Nat.iter_succ_r.
  destruct (Qle_bool p _); [by apply IH |].
  rewrite Hpair.
  destruct (swap_encodings_exchange enc_col i j rows Hij Hilt Hjlt Hall)
    as (rows1 & -> & Hlen1 & Hall1 & _).
  apply IH; [done | done | by rewrite Hlen1 | done].
Qed.

(** X18.  When every row holds the encoding column the call cannot raise,
    whatever the probability; and when it gets past its guards it consumes
    exactly [len(rows) - 1] draws for the shuffle and one draw for each of
    the [len(rows) // 2] pairs. *)
Theorem apply_encoding_swaps_draws rows (enc_col : string) (p : Q) (g : Random) :
  Forall (fun r => is_Some (r !! enc_col)) rows ->
  let out := apply_encoding_swaps rows enc_col p g in
  escaped out = None
  /\ (rows <> [] -> ~ (p <= 0)%Q ->
      rng_after out
      = Nat.iter (length rows - 1 + length rows / 2) advance g).
Proof.
  intros Hall out. subst out. unfold apply_encoding_swaps.
  destruct rows as [|first rest] eqn:Hrows; [done |].
  rewrite <- Hrows in *.
  assert (0 < length rows) as Hpos by (rewrite Hrows; simpl; lia).
  assert (first !! enc_col <> None) as Hfirst.
  { rewrite Hrows in Hall. apply Forall_cons in Hall as [[? ->] _]. done. }
  rewrite bool_decide_eq_false_2 by done. cbn [orb].
  destruct (Qle_bool p 0) eqn:Hp.
  { split; [done |]. intros _ Hnot. apply Qle_bool_iff in Hp. done. }
  unfold shuffle. rewrite length_seq.
  destruct (shuffle_from_draws (length rows - 1) (seq 0 (length rows)) g)
    as (indices & -> & Hperm); [rewrite length_seq; lia |].
  assert (length indices = length rows) as Hlen by (by rewrite Hperm, length_seq).
  destruct (pair_list_take indices ((length indices - 1 + 1) / 2) (range_count indices))
    as [Htake Hsome].
  destruct (swap_loop_returns enc_col p indices (range_by_two (length indices - 1))
              rows (Nat.iter (length rows - 1) advance g)) as [Hesc Hrng].
  - exact Hsome.
  - fold (visited indices). apply visited_NoDup. rewrite Hperm. apply NoDup_seq.
  - unfold range_by_two. rewrite Htake. apply Forall_forall. intros v Hv.
    assert (v ∈ indices) as Hin
      by (eapply elem_of_sublist; [exact Hv | apply sublist_take]).
    rewrite Hperm in Hin. apply elem_of_seq in Hin. lia.
  - exact Hall.
  - split; [exact Hesc |]. intros _ _. rewrite Hrng.
    unfold range_by_two. rewrite length_map, length_seq, Hlen.
    replace (length rows - 1 + 1) with (length rows) by lia.
    rewrite <- Nat.iter_add. f_equal. lia.
Qed.

Lemma apply_encoding_swaps_draws_witness :
  let rows : list (gmap string string) :=
    [ {[ "enc" := "E1" ]}; {[ "enc" := "E2" ]} ] in
  rng_after (apply_encoding_swaps rows "enc" 1 (tape_of []))
  = Nat.iter (2 - 1 + 2 / 2) advance (tape_of []).
Proof.
  intros rows.
  apply (apply_encoding_swaps_draws rows "enc" 1 (tape_of [])).
  - repeat constructor; by eexists.
  - discriminate.
  - intros H. vm_compute in H. by apply H.
Defined.

End more_swaps.

(** ** The file pipeline *)

Section pipeline.

Implicit Types rows noisy out : list (gmap string string).

Lemma mutate_rows_each rows (fieldnames : list string) (config : NoiseConfig)
    (g g' : Random) noisy :
  mutate_rows rows fieldnames config g = Ok (noisy, g') ->
  Forall2 (fun row o =>
             exists g1 g2, mutate_encoded_row row fieldnames config g1 = Ok (o, g2))
          rows noisy.
Proof.
  revert g noisy. induction rows as [|row rest IH]; intros g noisy Hrun.
  - cbn [mutate_rows] in Hrun. unfold ret in Hrun. simplify_eq. constructor.
  - cbn [mutate_rows] in Hrun. unfold bind in Hrun.
    destruct (mutate_encoded_row row fieldnames config g) as [[o g1]|] eqn:Hrow;
      [| done].
    destruct (mutate_rows rest fieldnames config g1) as [[os g2]|] eqn:Hrest;
      [| done].
    unfold ret in Hrun. simplify_eq. constructor; [by eexists _, _ | by eapply IH].
Qed.

Lemma encoding_column_trailing (front : list string) (enc uid : string) :
  encoding_column (front ++ [enc; uid]) = Some enc.
Proof.
  unfold encoding_column. rewrite length_app. cbn [length].
  rewrite decide_True by lia.
  replace (length front + 2 - 2) with (length front) by lia.
  rewrite lookup_app_r by lia. by rewrite Nat.sub_diag.
Qed.



(** *** Which files are processed *)

Lemma glob_match_literal (l name : list ascii) :
  literal l -> glob_match l name = true <-> name = l.
Proof.
  intros Hl. revert name. induction Hl as [|c l [Hstar Hq] _ IH]; intros name.
  - destruct name; cbn; split; intros; done.
  - cbn [glob_match]. rewrite decide_False by done.
    destruct name as [|x name]; [split; intros; done |].
    rewrite andb_true_iff, IH, (bool_decide_eq_false_2 _ Hq). cbn [orb].
    rewrite bool_decide_eq_true. split; [by intros [-> ->] | by intros [= -> ->]].
Qed.

Lemma glob_match_star (l name : list ascii) :
  literal l ->
  glob_match ("*"%char :: l) name = true <-> exists pre, name = pre ++ l.
Proof.
  intros Hl. cbn [glob_match]. rewrite decide_True by done.
  induction name as [|x name IH].
  - rewrite orb_false_r, (glob_match_literal l [] Hl). split.
    + intros <-. by exists [].
    + intros (pre & Heq). symmetry in Heq. by apply app_eq_nil in Heq as [_ ->].
  - rewrite orb_true_iff, (glob_match_literal l _ Hl), IH. split.
    + intros [-> | (pre & ->)]; [by exists [] | by exists (x :: pre)].
    + intros ([|y pre] & Heq); [by left |].
      right. exists pre. by simplify_eq/=.
Qed.

Lemma chars_inj (a b : string) : chars a = chars b -> a = b.
Proof. intros H. by rewrite <- (join_chars a), <- (join_chars b), H. Qed.

Lemma pattern_suffix (pattern name : string) :
  pattern ∈ patterns ->
  glob_match (chars pattern) (chars name) = true <->
  exists suffix pre,
    pattern = "*" +:+ suffix /\ suffix ∈ encoded_suffixes /\ name = pre +:+ suffix.
Proof.
  unfold patterns, encoded_suffixes. intros Hp.
  repeat (apply elem_of_cons in Hp as [-> | Hp]); [| | | | by apply elem_of_nil in Hp].
  all: match goal with
       | |- glob_match (chars (String "*" ?s)) _ = true <-> _ =>
           change (chars (String "*" s)) with ("*"%char :: chars s);
           rewrite (glob_match_star (chars s))
             by (unfold literal; vm_compute;
                 repeat (apply Forall_cons_2; [split; discriminate |]);
                 apply Forall_nil_2);
           split;
           [ intros (pre & Hpre); exists s, (join pre);
             split_and!; [done | apply list_elem_of_In; cbn; tauto |];
             apply chars_inj; by rewrite chars_app, chars_join
           | intros (suffix & pre & Hpat & _ & ->);
             match type of Hpat with
             | ?l = _ => change (l = String "*"%char suffix) in Hpat
             end;
             injection Hpat as <-;
             exists (chars pre); by rewrite chars_app ]
       end.
Qed.

Lemma suffixes_exclusive (s1 s2 pre1 pre2 : string) :
  s1 ∈ encoded_suffixes -> s2 ∈ encoded_suffixes ->
  pre1 +:+ s1 = pre2 +:+ s2 -> s1 = s2.
Proof.
  unfold encoded_suffixes. intros H1 H2 Heq.
  apply (f_equal chars) in Heq. rewrite !chars_app in Heq.
  apply (f_equal (@rev ascii)) in Heq. rewrite !rev_app_distr in Heq.
  repeat (apply elem_of_cons in H1 as [-> | H1]); [| | | | by apply elem_of_nil in H1].
  all: repeat (apply elem_of_cons in H2 as [-> | H2]);
    [| | | | by apply elem_of_nil in H2].
  all: try reflexivity.
  all: exfalso; cbn in Heq; by simplify_eq.
Qed.

Lemma elem_of_flat_map {A B} (f : A -> list B) (l : list A) (y : B) :
  y ∈ flat_map f l <-> exists x, x ∈ l /\ y ∈ f x.
Proof.
  rewrite list_elem_of_In, in_flat_map. split.
  - intros (x & Hx & Hy). exists x. by rewrite !list_elem_of_In.
  - intros (x & Hx & Hy). exists x. by rewrite <- !list_elem_of_In.
Qed.

Lemma elem_of_sorted_glob (pattern : string) (names : list string) (x : string) :
  x ∈ sorted (glob pattern names)
  <-> x ∈ names /\ glob_match (chars pattern) (chars x) = true.
Proof.
  unfold sorted, glob. rewrite merge_sort_Permutation, list_elem_of_filter. tauto.
Qed.

(** X20.  [iter_encoded_files] yields exactly the directory entries whose
    name ends with one of the four endings, and each of them once: no file
    is processed twice. *)
Theorem iter_encoded_files_once (names : list string) :
  NoDup names ->
  NoDup (iter_encoded_files names)
  /\ (forall x,
        x ∈ iter_encoded_files names
        <-> x ∈ names
            /\ exists suffix pre, suffix ∈ encoded_suffixes /\ x = pre +:+ suffix).
Proof.
  intros Hnd.
  assert (forall pattern, NoDup (sorted (glob pattern names))) as Hsorted.
  { intros pattern. unfold sorted, glob. rewrite merge_sort_Permutation.
    by apply NoDup_filter. }
  assert (forall p1 p2 x,
            p1 ∈ patterns -> p2 ∈ patterns ->
            x ∈ sorted (glob p1 names) -> x ∈ sorted (glob p2 names) -> p1 = p2)
    as Hexcl.
  { intros p1 p2 x Hp1 Hp2 [_ H1]%elem_of_sorted_glob [_ H2]%elem_of_sorted_glob.
    apply (pattern_suffix _ _ Hp1) in H1 as (s1 & pre1 & -> & Hs1 & Hx1).
    apply (pattern_suffix _ _ Hp2) in H2 as (s2 & pre2 & -> & Hs2 & Hx2).
    f_equal. apply (suffixes_exclusive s1 s2 pre1 pre2); [done | done | congruence]. }
  split.
  - unfold iter_encoded_files.
    assert (NoDup patterns) as Hpat by (apply (bool_decide_unpack _); vm_compute; exact I).
    revert Hexcl Hpat. generalize patterns. intros ps Hexcl Hpat.
    induction ps as [|p ps IH]; [constructor |].
    cbn [flat_map]. apply NoDup_cons in Hpat as [Hp Hps].
    apply NoDup_app. split_and!.
    + apply Hsorted.
    + intros x Hx Hin. apply elem_of_flat_map in Hin as (q & Hq & Hxq).
      assert (p = q) as -> by (apply (Hexcl p q x); [left | by right | done | done]).
      done.
    + apply IH; [| done]. intros p1 p2 x ? ?. apply Hexcl; by right.
  - intros x. unfold iter_encoded_files. rewrite elem_of_flat_map. split.
    + intros (pattern & Hp & Hx). apply elem_of_sorted_glob in Hx as [Hin Hmatch].
      apply (pattern_suffix _ _ Hp) in Hmatch as (suffix & pre & _ & Hs & ->).
      split; [done |]. by exists suffix, pre.
    + intros (Hin & suffix & pre & Hs & ->).
      exists ("*" +:+ suffix). split.
      * unfold encoded_suffixes in Hs. unfold patterns.
        repeat (apply elem_of_cons in Hs as [-> | Hs]);
          [| | | | by apply elem_of_nil in Hs];
          apply list_elem_of_In; cbn; tauto.
      * apply elem_of_sorted_glob. split; [done |].
        apply pattern_suffix.
        -- unfold encoded_suffixes in Hs. unfold patterns.
           repeat (apply elem_of_cons in Hs as [-> | Hs]);
             [| | | | by apply elem_of_nil in Hs];
          apply list_elem_of_In; cbn; tauto.
        -- by exists suffix, pre.
Qed.

Lemma iter_encoded_files_once_witness :
  NoDup (iter_encoded_files ["b_bf_encoded.tsv"; "notes.txt"; "a_bf_encoded.tsv"]).
Proof.
  apply (iter_encoded_files_once ["b_bf_encoded.tsv"; "notes.txt"; "a_bf_encoded.tsv"]).
  apply (bool_decide_unpack _). vm_compute. exact I.
Defined.

End pipeline.
